(** * The n8n bridge and the Supabase auth-state store, embedded in Rocq

    Source files:
    - [Example/n8n-bridge.ts]: rule engine ([shouldAutomate]), webhook
      dispatcher ([callN8n]), audit logger ([insertLog]), runtime-config cache
      ([getRuntimeConfig]) and connection supervisor ([start]).
    - [Example/use-supabase-auth-state.ts]: the key store ([keys.get],
      [keys.set]) and the credentials ([loadCreds], [saveCreds]).

    Pure functions are Rocq functions.  Code that awaits the outside world
    (datastore, webhook, transport socket, timers, logger) is a finite tree of
    operations: every external call is a node whose children are indexed by
    the call's possible answers, so a statement about the tree holds for every
    behaviour of the outside world. *)

From Stdlib Require Import ZArith NArith List String Ascii Bool Lia DecimalString.
From stdpp Require Import base option strings gmap.

Import ListNotations.
Local Open Scope string_scope.

(** ** JavaScript values the programs inspect *)

Module JS.

(** [ToBoolean] on a string: only the empty string is falsy. *)
Definition truthy_str (s : string) : bool := negb (String.eqb s "").

(** [ToBoolean] on [string | undefined]. *)
Definition truthy_opt (o : option string) : bool :=
  match o with
  | Some s => truthy_str s
  | None => false
  end.

(** [a || b] where [a : string | undefined] and [b : string]. *)
Definition or_str (a : option string) (b : string) : string :=
  match a with
  | Some s => if truthy_str s then s else b
  | None => b
  end.

(** [a || undefined] on [string | undefined]: a falsy string becomes
    [undefined]. *)
Definition or_undefined (a : option string) : option string :=
  match a with
  | Some s => if truthy_str s then Some s else None
  | None => None
  end.

(** [a || b] where [a] is an array or [null]/[undefined]: every array,
    also the empty one, is truthy. *)
Definition or_array {A} (a b : option (list A)) : option (list A) :=
  match a with
  | Some l => Some l
  | None => b
  end.

(** [Array.prototype.includes] on strings. *)
Definition includes (l : list string) (x : string) : bool :=
  existsb (String.eqb x) l.

(** [WhiteSpace] and [LineTerminator] code units below 256: TAB, LF, VT,
    FF, CR, SP and NBSP.  Strings are sequences of such code units. *)
Definition is_white_space (c : ascii) : bool :=
  let n := nat_of_ascii c in
  (Nat.leb 9 n && Nat.leb n 13) || Nat.eqb n 32 || Nat.eqb n 160.

Fixpoint trim_start (s : string) : string :=
  match s with
  | String c s' => if is_white_space c then trim_start s' else s
  | EmptyString => EmptyString
  end.

(** Removal of trailing white space, written as a right fold: a white-space
    unit is dropped exactly when everything after it has been dropped. *)
Fixpoint trim_end (s : string) : string :=
  match s with
  | String c s' =>
      match trim_end s' with
      | EmptyString => if is_white_space c then EmptyString else String c EmptyString
      | t => String c t
      end
  | EmptyString => EmptyString
  end.

(** [String.prototype.trim]. *)
Definition trim (s : string) : string := trim_end (trim_start s).

(** [String.prototype.slice(0, n)]. *)
Definition slice0 (n : nat) (s : string) : string := String.substring 0 n s.

(** Template-literal rendering of a non-negative integer. *)
Definition show_N (n : N) : string := NilZero.string_of_uint (N.to_uint n).

(** A value that came out of JSON: a parsed document, or what a reviver made
    of one ([Buffer] for binary data).  Numbers are the integral ones. *)
#[warnings="-register-all"]
Inductive value : Type :=
| Null
| Bool (b : bool)
| Num (n : Z)
| Str (s : string)
| Buffer (bytes : list N)
| Arr (l : list value)
| Obj (fields : list (string * value)).

(** [ToBoolean]. *)
Definition truthy (v : value) : bool :=
  match v with
  | Null => false
  | Bool b => b
  | Num n => negb (Z.eqb n 0)
  | Str s => truthy_str s
  | Buffer _ => true
  | Arr _ => true
  | Obj _ => true
  end.

Fixpoint assoc (k : string) (fields : list (string * value)) : option value :=
  match fields with
  | [] => None
  | (k', v) :: rest => if String.eqb k k' then Some v else assoc k rest
  end.

(** [v?.k]: [undefined] (here [None]) on [null] and on a missing
    property; primitives have none of the properties read here. *)
Definition get (v : value) (k : string) : option value :=
  match v with
  | Obj fields => assoc k fields
  | _ => None
  end.

Definition truthy_field (o : option value) : bool :=
  match o with
  | Some v => truthy v
  | None => false
  end.

End JS.

(** ** Programs over the outside world *)

(** The outcome of an awaited promise or of a call that may throw. *)
Inductive result (A : Type) : Type :=
| Ok (a : A)
| Err (message : string).
Arguments Ok {A} a.
Arguments Err {A} message.

(** A program is a finite tree: it returns, throws, or performs an external
    operation [o] and continues with the answer, whatever the answer is. *)
Module Prog.
Section Prog.
Context {op : Type} {resp : op -> Type}.

Inductive prog (A : Type) : Type :=
| Ret (a : A)
| Throw (message : string)
| Call (o : op) (k : resp o -> prog A).
Arguments Ret {A} a.
Arguments Throw {A} message.
Arguments Call {A} o k.

Fixpoint bind {A B} (p : prog A) (f : A -> prog B) : prog B :=
  match p with
  | Ret a => f a
  | Throw e => Throw e
  | Call o k => Call o (fun x => bind (k x) f)
  end.

(** [await o]: one operation, its answer returned. *)
Definition call (o : op) : prog (resp o) := Call o Ret.

(** [try { p } catch (err) { h err }], also [p.catch(h)]. *)
Fixpoint try_catch {A} (p : prog A) (h : string -> prog A) : prog A :=
  match p with
  | Ret a => Ret a
  | Throw e => h e
  | Call o k => Call o (fun x => try_catch (k x) h)
  end.

(** [try { p } finally { q }]: [q] runs on both exits and the outcome of
    [p] is kept. *)
Fixpoint finally {A} (p : prog A) (q : prog unit) : prog A :=
  match p with
  | Ret a => bind q (fun _ => Ret a)
  | Throw e => bind q (fun _ => Throw e)
  | Call o k => Call o (fun x => finally (k x) q)
  end.

(** The outside world as an oracle: one answer per operation. *)
Definition world : Type := forall o : op, resp o.

(** Running a program against an oracle: the outcome and the operations
    performed, in order. *)
Fixpoint exec {A} (w : world) (p : prog A) : result A * list op :=
  match p with
  | Ret a => (Ok a, [])
  | Throw e => (Err e, [])
  | Call o k => let '(r, t) := exec w (k (w o)) in (r, o :: t)
  end.

(** No answer of the outside world makes the program throw. *)
Inductive never_throws {A} : prog A -> Prop :=
| never_throws_ret a : never_throws (Ret a)
| never_throws_call o k : (forall x, never_throws (k x)) -> never_throws (Call o k).

(** Every operation the program can ever perform satisfies [P]. *)
Inductive all_ops {A} (P : op -> Prop) : prog A -> Prop :=
| all_ops_ret a : all_ops P (Ret a)
| all_ops_throw e : all_ops P (Throw e)
| all_ops_call o k : P o -> (forall x, all_ops P (k x)) -> all_ops P (Call o k).

End Prog.
Arguments prog op resp A : clear implicits.
Arguments world op resp : clear implicits.
End Prog.
Import Prog.
Arguments Ret {op resp A} a.
Arguments Throw {op resp A} message.
Arguments Call {op resp A} o k.

Notation "'let!' x ':=' p 'in' k" := (bind p (fun x => k))
  (at level 10, x pattern, p at level 100, k at level 200).

(** Awaiting a promise that has settled: a rejection is thrown. *)
Definition settle {op : Type} {resp : op -> Type} {A : Type}
    (r : result A) : prog op resp A :=
  match r with
  | Ok a => Ret a
  | Err e => Throw e
  end.

(** ** Statements over every run

    An event is an operation together with the answer it got.  [runs p Q]
    says that [Q] holds of the events and the outcome of every run of [p]:
    each call may be answered by any value of its answer type, and two calls
    of the same operation need not get the same answer. *)
Module Runs.
Section Runs.
Context {op : Type} {resp : op -> Type}.

Definition event : Type := sigT resp.

Fixpoint runs {A} (p : prog op resp A) (Q : list event -> result A -> Prop) : Prop :=
  match p with
  | Ret a => Q [] (Ok a)
  | Throw e => Q [] (Err e)
  | Call o k => forall x : resp o, runs (k x) (fun t r => Q (existT o x :: t) r)
  end.

(** One run, against an oracle, with the answers recorded. *)
Fixpoint run {A} (w : world op resp) (p : prog op resp A) : result A * list event :=
  match p with
  | Ret a => (Ok a, [])
  | Throw e => (Err e, [])
  | Call o k => let '(r, t) := run w (k (w o)) in (r, existT o (w o) :: t)
  end.

End Runs.
Arguments event op resp : clear implicits.
End Runs.
Import Runs.

(** ** Example/n8n-bridge.ts *)

Module Bridge.

(** *** Rows and configuration

    The union types [ContactsMode], [GroupDefaultRule] and [AutomationRule]
    are strings at run time: rows arrive from the datastore through an
    unchecked cast, and the code itself has a branch for values outside the
    unions. *)

Record AppSettingsRow : Type := {
  ignore_from_me : bool;
  contacts_mode : string;
  groups_default_rule : string;
  reply_send_to : string;
  reply_prefix : string
}.

Record EntityRuleRow : Type := {
  jid : string;
  type : string;
  name : string;
  rule : string
}.

Record RuntimeConfig : Type := {
  settings : AppSettingsRow;
  contacts : gmap string EntityRuleRow;
  groups : gmap string EntityRuleRow
}.

(** *** The parts of [proto.IMessage] the bridge reads *)

Record ContextInfo : Type := {
  mentionedJid : option (list string)
}.

Record ExtendedTextMessage : Type := {
  text : option string;
  ext_contextInfo : option ContextInfo
}.

(** Image, video and document messages: a caption and a context. *)
Record MediaMessage : Type := {
  caption : option string;
  media_contextInfo : option ContextInfo
}.

Record IMessage : Type := {
  conversation : option string;
  extendedTextMessage : option ExtendedTextMessage;
  imageMessage : option MediaMessage;
  videoMessage : option MediaMessage;
  documentMessage : option MediaMessage
}.

(** [m?.text] and [m?.caption]. *)
Definition ext_text (m : option ExtendedTextMessage) : option string :=
  match m with
  | Some m => text m
  | None => None
  end.

Definition media_caption (m : option MediaMessage) : option string :=
  match m with
  | Some m => caption m
  | None => None
  end.

Definition extractText (msg : option IMessage) : option string :=
  match msg with
  | None => None
  | Some msg =>
      if JS.truthy_opt (conversation msg) then conversation msg
      else if JS.truthy_opt (ext_text (extendedTextMessage msg))
      then ext_text (extendedTextMessage msg)
      else if JS.truthy_opt (media_caption (imageMessage msg))
      then media_caption (imageMessage msg)
      else if JS.truthy_opt (media_caption (videoMessage msg))
      then media_caption (videoMessage msg)
      else if JS.truthy_opt (media_caption (documentMessage msg))
      then media_caption (documentMessage msg)
      else None
  end.

(** [m?.contextInfo?.mentionedJid] on the two shapes of content. *)
Definition ext_mentionedJid (m : option ExtendedTextMessage) : option (list string) :=
  match m with
  | Some m =>
      match ext_contextInfo m with
      | Some c => mentionedJid c
      | None => None
      end
  | None => None
  end.

Definition media_mentionedJid (m : option MediaMessage) : option (list string) :=
  match m with
  | Some m =>
      match media_contextInfo m with
      | Some c => mentionedJid c
      | None => None
      end
  | None => None
  end.

(** The [mentioned] array of [isMentioningMe]: the first content variant
    that carries a mention array decides, else the empty array. *)
Definition mentioned (msg : IMessage) : list string :=
  default []
    (JS.or_array (ext_mentionedJid (extendedTextMessage msg))
    (JS.or_array (media_mentionedJid (imageMessage msg))
    (JS.or_array (media_mentionedJid (videoMessage msg))
    (JS.or_array (media_mentionedJid (documentMessage msg))
                 (Some []))))).

(** *** Webhook and audit-log records *)

Record N8nWebhookPayload : Type := {
  requestId : string;
  receivedAt : string;
  chatJid : string;
  senderJid : option string;
  isGroup : bool;
  messageId : option string;
  messageTimestamp : option Z;
  payload_text : option string
}.

Inductive Direction : Type := inbound | outbound.

Record MessageLogInsert : Type := {
  direction : Direction;
  chat_jid : string;
  sender_jid : option string;
  message_id : option string;
  log_text : option string;
  automated : bool;
  n8n_request_id : option string;
  n8n_status : option N;
  n8n_error : option string
}.

(** What [fetch] resolves to: the status and what [res.text()] and
    [res.json()] would settle to ([res.json()] rejects on a body that is not
    well-formed JSON). *)
Record Response : Type := {
  status : N;
  res_text : result string;
  res_json : result JS.value
}.

(** [res.ok]: the status is in the range 200-299. *)
Definition ok (res : Response) : bool :=
  (200 <=? status res)%N && (status res <=? 299)%N.

(** What a datastore query resolves to: [{ data, error }]; the client
    reports failures in [error] and does not reject. *)
Record QueryResult (A : Type) : Type := {
  data : option A;
  error : option string (* error.message *)
}.
Arguments data {A} _.
Arguments error {A} _.

(** *** Transport events *)

Record LastDisconnect : Type := {
  statusCode : option Z (* (error as Boom)?.output?.statusCode *)
}.

Record ConnectionUpdate : Type := {
  connection : option string;
  lastDisconnect : option LastDisconnect
}.

Record WAMessageKey : Type := {
  remoteJid : option string;
  fromMe : option bool;
  participant : option string;
  id : option string
}.

(** A message time stamp is a number or a [Long]. *)
Inductive Timestamp : Type :=
| TsNumber (n : Z)
| TsLong (n : Z).

Record WAMessage : Type := {
  key : WAMessageKey;
  message : option IMessage;
  wa_messageTimestamp : option Timestamp
}.

Record MessagesUpsert : Type := {
  messages : list WAMessage;
  upsert_type : string
}.

(** The event map handed to the [sock.ev.process] callback. *)
Record Events : Type := {
  connection_update : option ConnectionUpdate;
  creds_update : bool;
  messages_upsert : option MessagesUpsert
}.

(** *** Operations on the outside world *)

Inductive Level : Type := info | warn | error_level.

Inductive Callback : Type :=
| Restart (* () => { start().catch(...) } *).

Inductive op : Type :=
| DateNow
| SelectAppSettings
| SelectEntityRules
| SetAbortTimer (ms : Z)
| ClearAbortTimer
| Fetch (url : string) (headers : list (string * string)) (body : N8nWebhookPayload)
| InsertMessageLog (row : MessageLogInsert)
| Log (level : Level) (msg : string)
| RandomUUID
| NowISOString
| UseMultiFileAuthState (folder : string)
| FetchLatestBaileysVersion
| MakeWASocket
| CredsRegistered (* sock.authState.creds.registered *)
| SockUserId (* sock.user?.id *)
| Sleep (ms : Z)
| RequestPairingCode (phone : string)
| EvProcess (* sock.ev.process(handler) *)
| SetTimeout (cb : Callback) (ms : Z)
| SaveCreds
| SendMessage (destination : string) (text : string).

Definition resp (o : op) : Type :=
  match o with
  | DateNow => Z
  | SelectAppSettings => QueryResult AppSettingsRow
  | SelectEntityRules => QueryResult (list EntityRuleRow)
  | Fetch _ _ _ => result Response
  | InsertMessageLog _ => QueryResult unit
  | RandomUUID | NowISOString => string
  | UseMultiFileAuthState _ | FetchLatestBaileysVersion | SaveCreds
  | SendMessage _ _ => result unit
  | CredsRegistered => bool
  | SockUserId => option string
  | RequestPairingCode _ => result string
  | SetAbortTimer _ | ClearAbortTimer | Log _ _ | MakeWASocket | Sleep _
  | EvProcess | SetTimeout _ _ => unit
  end.

Abbreviation prog := (Prog.prog op resp).

(** [await] of one operation. *)
Definition call (o : op) : prog (resp o) := Prog.call o.

(** [s.endsWith(suffix)]. *)
Definition ends_with (s suffix : string) : bool :=
  let n := String.length s in
  let k := String.length suffix in
  Nat.leb k n && String.eqb (String.substring (n - k) k s) suffix.

Section Env.

(** Functions and constants of the transport library. *)
Variable jidNormalizedUser : string -> string.
Variable isJidNewsletter : string -> bool.
Variable loggedOut : Z. (* DisconnectReason.loggedOut *)

(** The process environment, read once at start-up.  [N8N_TIMEOUT_MS] is
    [Number(...)] of a variable: zero stands for every falsy number. *)
Variable N8N_WEBHOOK_URL : string.
Variable N8N_TIMEOUT_MS : Z.
Variable N8N_SHARED_SECRET : string.
Variable AUTH_FOLDER : string.
Variable PAIRING_PHONE_NUMBER : string.

Definition isMentioningMe (msg : option IMessage) (myJid : option string) : bool :=
  match msg, myJid with
  | Some msg, Some myJid =>
      if negb (JS.truthy_str myJid) then false
      else
        let my := jidNormalizedUser myJid in
        JS.includes (map jidNormalizedUser (mentioned msg)) my
  | _, _ => false
  end.

Definition resolveFinalGroupRule (cfg : RuntimeConfig) (chatJid : string)
    (msg : option IMessage) (myJid : option string) : bool :=
  let override := groups cfg !! chatJid in
  let overrideRule :=
    if JS.truthy_opt (rule <$> override)
       && negb (String.eqb (default "" (rule <$> override)) "default")
    then rule <$> override else None in
  let base := groups_default_rule (settings cfg) in
  let finalRule := JS.or_str overrideRule base in
  if String.eqb finalRule "disabled" then false
  else if String.eqb finalRule "enabled" then true
  else if String.eqb finalRule "mentionOnly" then isMentioningMe msg myJid
  else false.

Definition shouldAutomate (cfg : RuntimeConfig) (chatJid : string) (isGroup : bool)
    (msg : option IMessage) (myJid : option string) : bool :=
  if isGroup then resolveFinalGroupRule cfg chatJid msg myJid
  else
    (* Direct chat *)
    let ruleRow := contacts cfg !! chatJid in
    let override :=
      if JS.truthy_opt (rule <$> ruleRow)
         && negb (String.eqb (default "" (rule <$> ruleRow)) "default")
      then default "" (rule <$> ruleRow) else "default" in
    if String.eqb (contacts_mode (settings cfg)) "allowlist"
    then String.eqb override "enabled"
    else
      (* denylist *)
      if String.eqb override "disabled" then false else true.


(** *** WebhookDispatcher *)

(** The request headers: the shared secret goes along when one is set. *)
Definition headers : list (string * string) :=
  ("content-type", "application/json")
    :: (if JS.truthy_str N8N_SHARED_SECRET
        then [("x-bridge-secret", N8N_SHARED_SECRET)] else []).

Definition callN8n (payload : N8nWebhookPayload) : prog (JS.value * N) :=
  let! _ := call (SetAbortTimer (if Z.eqb N8N_TIMEOUT_MS 0 then 15000 else N8N_TIMEOUT_MS)) in
  finally
    (let! fetched :=
       call (Fetch N8N_WEBHOOK_URL headers payload) in
     let! res := settle fetched in
     if negb (ok res) then
       let text := match res_text res with Ok t => t | Err _ => "" end in
       Throw (JS.slice0 800 ("n8n responded " ++ JS.show_N (status res) ++ ": " ++ text))
     else
       let json := match res_json res with Ok j => j | Err _ => JS.Obj [] end in
       Ret (if JS.truthy json then json else JS.Obj [], status res))
    (call ClearAbortTimer).

(** *** AuditLogger *)

Definition insertLog (row : MessageLogInsert) : prog unit :=
  let! inserted := call (InsertMessageLog row) in
  match error inserted with
  | Some message => call (Log warn ("Failed to insert message log: " ++ message))
  | None => Ret tt
  end.

(** *** ConfigCache *)

Fixpoint index_rules (rules : list EntityRuleRow)
    (maps : gmap string EntityRuleRow * gmap string EntityRuleRow)
    : gmap string EntityRuleRow * gmap string EntityRuleRow :=
  match rules with
  | [] => maps
  | r :: rest =>
      index_rules rest
        (if String.eqb (type r) "contact"
         then (<[jid r := r]> (fst maps), snd maps)
         else (fst maps, <[jid r := r]> (snd maps)))
  end.

Definition loadRuntimeConfig : prog RuntimeConfig :=
  let! settingsRes := call SelectAppSettings in
  match error settingsRes, data settingsRes with
  | None, Some settings =>
      let! rulesRes := call SelectEntityRules in
      match error rulesRes with
      | Some message => Throw ("Failed to load entity_rules: " ++ message)
      | None =>
          let maps := index_rules (default [] (data rulesRes)) (∅, ∅) in
          Ret {| settings := settings; contacts := fst maps; groups := snd maps |}
      end
  | settingsErr, _ =>
      Throw ("Failed to load app_settings: " ++ JS.or_str settingsErr "missing row")
  end.

(** The module-level [runtimeCache] object, passed explicitly. *)
Record RuntimeCache : Type := {
  cfg : option RuntimeConfig;
  loadedAt : Z;
  ttlMs : Z
}.

Definition runtimeCache : RuntimeCache :=
  {| cfg := None; loadedAt := 0; ttlMs := 4000 |}.

(** Returns the snapshot and the cache as the call leaves it.  A failed load
    throws before either assignment, so the cache is then what it was. *)
Definition getRuntimeConfig (cache : RuntimeCache) : prog (RuntimeConfig * RuntimeCache) :=
  let! now := call DateNow in
  match cfg cache with
  | Some cached =>
      if (now - loadedAt cache <? ttlMs cache)%Z then Ret (cached, cache)
      else
        let! loaded := loadRuntimeConfig in
        Ret (loaded, {| cfg := Some loaded; loadedAt := now; ttlMs := ttlMs cache |})
  | None =>
      let! loaded := loadRuntimeConfig in
      Ret (loaded, {| cfg := Some loaded; loadedAt := now; ttlMs := ttlMs cache |})
  end.

(** *** ConnectionSupervisor: start-up *)

Definition start : prog unit :=
  let! authState := call (UseMultiFileAuthState AUTH_FOLDER) in
  let! _ := settle authState in
  let! version := call FetchLatestBaileysVersion in
  let! _ := settle version in
  let! _ := call (Log info "Using WhatsApp Web version") in
  let pairingRequested := false in
  let! _ := call MakeWASocket in
  (* Pairing code onboarding for headless environments *)
  let! registered := call CredsRegistered in
  let! _ :=
    if negb registered then
      if JS.truthy_str PAIRING_PHONE_NUMBER && negb pairingRequested then
        let! _ := call (Sleep 1500) in
        let! code := call (RequestPairingCode PAIRING_PHONE_NUMBER) in
        let! code := settle code in
        call (Log info ("Pairing code " ++ code))
      else
        call (Log info "Not registered yet. Set PAIRING_PHONE_NUMBER to print a pairing code.")
    else Ret tt in
  call EvProcess.

(** What the timer set on a transient disconnect runs. *)
Definition run_callback (cb : Callback) : prog unit :=
  match cb with
  | Restart => try_catch start (fun err => call (Log error_level "Failed to restart"))
  end.

(** *** The message pipeline *)

(** The outbound audit row of every outcome, up to the fields that vary. *)
Definition outbound_log (chat : string) (senderJid : option string)
    (text : option string) (requestId : string) (status : option N)
    (err : option string) : MessageLogInsert :=
  {| direction := outbound;
     chat_jid := chat;
     sender_jid := JS.or_undefined senderJid;
     message_id := None;
     log_text := text;
     automated := true;
     n8n_request_id := Some requestId;
     n8n_status := status;
     n8n_error := err |}.

(** The [message] of the [TypeError] the runtime raises when the callee of
    [(resp?.replyText || '').trim()] is not a function: the callee as the
    runtime prints it, with the empty string literal between two double
    quotes (character 34). *)
Definition trim_is_not_a_function : string :=
  "((intermediate value) || " ++ String "034" (String "034" ").trim is not a function").

(** [(resp?.replyText || '').trim()]: a truthy value that is not a string
    has no [trim] method, and the call throws. *)
Definition trimmed_replyText (resp : JS.value) : prog string :=
  match JS.get resp "replyText" with
  | Some v =>
      if JS.truthy v then
        match v with
        | JS.Str s => Ret (JS.trim s)
        | _ => Throw trim_is_not_a_function
        end
      else Ret (JS.trim "")
  | None => Ret (JS.trim "")
  end.

(** [(resp?.sendTo || cfg.settings.reply_send_to) === 'directToSender']. *)
Definition sendTo_is_directToSender (cfg : RuntimeConfig) (resp : JS.value) : bool :=
  let sendTo :=
    match JS.get resp "sendTo" with
    | Some v => if JS.truthy v then v else JS.Str (reply_send_to (settings cfg))
    | None => JS.Str (reply_send_to (settings cfg))
    end in
  match sendTo with
  | JS.Str s => String.eqb s "directToSender"
  | _ => false
  end.

(** [const destination = sendTo === 'directToSender' && senderJid ? senderJid : chatJid]. *)
Definition destination (cfg : RuntimeConfig) (resp : JS.value) (chatJid : string)
    (senderJid : option string) : string :=
  match senderJid with
  | Some sender =>
      if sendTo_is_directToSender cfg resp && JS.truthy_str sender then sender else chatJid
  | None => chatJid
  end.

(** [const finalText = `${cfg.settings.reply_prefix || ''}${replyText}`]. *)
Definition finalText (cfg : RuntimeConfig) (replyText : string) : string :=
  JS.or_str (Some (reply_prefix (settings cfg))) "" ++ replyText.

(** What follows [callN8n] inside the [try] block: skip, empty reply, or the
    reply sent and logged. *)
Definition reply (cfg : RuntimeConfig) (chatJid : string) (senderJid : option string)
    (requestId : string) (resp : JS.value) (status : N) : prog unit :=
  if JS.truthy_field (JS.get resp "skipReply") then
    insertLog (outbound_log chatJid senderJid None requestId (Some status) (Some "skipReply"))
  else
    let! replyText := trimmed_replyText resp in
    if negb (JS.truthy_str replyText) then
      insertLog (outbound_log chatJid senderJid None requestId (Some status) None)
    else
      let! sent := call (SendMessage (destination cfg resp chatJid senderJid)
                           (finalText cfg replyText)) in
      let! _ := settle sent in
      let! _ := insertLog (outbound_log (destination cfg resp chatJid senderJid) senderJid
                             (Some (finalText cfg replyText)) requestId (Some status) None) in
      call (Log info "Replied on WhatsApp").

(** [const senderJid = isGroup ? m.key.participant || undefined : chatJid]. *)
Definition sender_of (m : WAMessage) (chatJid : string) (isGroup : bool) : option string :=
  if isGroup then JS.or_undefined (participant (key m)) else Some chatJid.

(** The body of [for (const m of upsert.messages)]; every [continue] is a
    return. *)
Definition process_message (cache : RuntimeCache) (m : WAMessage) : prog RuntimeCache :=
  match remoteJid (key m) with
  | None => Ret cache
  | Some chatJid =>
      if negb (JS.truthy_str chatJid) then Ret cache
      else if isJidNewsletter chatJid then Ret cache
      else
        let! (loaded, cache) :=
          try_catch
            (let! (snapshot, cache') := getRuntimeConfig cache in Ret (Some snapshot, cache'))
            (fun err =>
               let! _ := call (Log error_level "Failed to load runtime config") in
               Ret (None, cache)) in
        match loaded with
        | None => Ret cache
        | Some cfg =>
            if ignore_from_me (settings cfg) && default false (fromMe (key m)) then Ret cache
            else
              let isGroup := ends_with chatJid "@g.us" in
              let senderJid := sender_of m chatJid isGroup in
              let text := extractText (message m) in
              let! myId := call SockUserId in
              let automated := shouldAutomate cfg chatJid isGroup (message m) myId in
              let! _ :=
                if JS.truthy_opt text then call (Log info "Incoming message") else Ret tt in
              (* Log inbound (even if not automated, as long as it has a text payload) *)
              let! _ :=
                if JS.truthy_opt text then
                  insertLog {| direction := inbound;
                               chat_jid := chatJid;
                               sender_jid := JS.or_undefined senderJid;
                               message_id := JS.or_undefined (id (key m));
                               log_text := text;
                               automated := automated;
                               n8n_request_id := None;
                               n8n_status := None;
                               n8n_error := None |}
                else Ret tt in
              if negb automated then Ret cache
              else if negb (JS.truthy_opt text) then Ret cache
              else
                let! requestId := call RandomUUID in
                let! receivedAt := call NowISOString in
                let payload :=
                  {| requestId := requestId;
                     receivedAt := receivedAt;
                     chatJid := chatJid;
                     senderJid := senderJid;
                     isGroup := isGroup;
                     messageId := JS.or_undefined (id (key m));
                     messageTimestamp :=
                       match wa_messageTimestamp m with
                       | Some (TsNumber n) => Some n
                       | _ => None
                       end;
                     payload_text := text |} in
                let! _ :=
                  try_catch
                    (let! _ := call (Log info "Forwarding message to n8n") in
                     let! (resp, status) := callN8n payload in
                     reply cfg chatJid senderJid requestId resp status)
                    (fun msg =>
                       let! _ := insertLog (outbound_log chatJid senderJid None requestId None
                                              (Some (JS.slice0 900 msg))) in
                       call (Log error_level "Failed to process message")) in
                Ret cache
        end
  end.

Fixpoint process_messages (cache : RuntimeCache) (ms : list WAMessage) : prog RuntimeCache :=
  match ms with
  | [] => Ret cache
  | m :: rest =>
      let! cache := process_message cache m in
      process_messages cache rest
  end.

(** *** ConnectionSupervisor: the [connection.update] branch *)

Definition on_connection_update (update : ConnectionUpdate) : prog unit :=
  match connection update with
  | Some state =>
      if String.eqb state "close" then
        let code :=
          match lastDisconnect update with
          | Some last => statusCode last
          | None => None
          end in
        if negb (bool_decide (code = Some loggedOut)) then
          let! _ := call (Log warn "Connection closed; reconnecting") in
          call (SetTimeout Restart 1500)
        else
          call (Log error_level "Logged out. Delete auth folder and restart to re-pair.")
      else Ret tt
  | None => Ret tt
  end.

(** The callback given to [sock.ev.process]. *)
Definition on_events (cache : RuntimeCache) (events : Events) : prog RuntimeCache :=
  let! _ :=
    match connection_update events with
    | Some update => on_connection_update update
    | None => Ret tt
    end in
  let! _ :=
    if creds_update events then
      let! saved := call SaveCreds in settle saved
    else Ret tt in
  match messages_upsert events with
  | None => Ret cache
  | Some upsert =>
      if negb (String.eqb (upsert_type upsert) "notify") then Ret cache
      else process_messages cache (messages upsert)
  end.

(** *** The process over its lifetime

    The process starts once; then transport events arrive one at a time, and
    the timers an event's callback has set fire before the next event. *)

(** The timers set along a trace: callback and delay. *)
Definition timers (trace : list op) : list (Callback * Z) :=
  flat_map (fun o => match o with SetTimeout cb ms => [(cb, ms)] | _ => [] end) trace.

Definition no_timer (o : op) : Prop :=
  match o with
  | SetTimeout _ _ => False
  | _ => True
  end.

Definition fire (w : world op resp) (set : list (Callback * Z)) : list op :=
  flat_map (fun timer => snd (exec w (run_callback (fst timer)))) set.

Fixpoint run_events (w : world op resp) (cache : RuntimeCache) (evs : list Events)
    : list op :=
  match evs with
  | [] => []
  | ev :: rest =>
      let '(outcome, trace) := exec w (on_events cache ev) in
      let cache' := match outcome with Ok c => c | Err _ => cache end in
      trace ++ fire w (timers trace) ++ run_events w cache' rest
  end.

(** [await start()] at the top level: a start-up that throws ends the
    process. *)
Definition lifetime (w : world op resp) (evs : list Events) : list op :=
  let '(outcome, trace) := exec w start in
  match outcome with
  | Ok _ => trace ++ run_events w runtimeCache evs
  | Err _ => trace
  end.

Definition pairing_requests (trace : list op) : nat :=
  length (List.filter (fun o => match o with RequestPairingCode _ => true | _ => false end) trace).

End Env.

End Bridge.

(** ** Example/n8n-bridge.ts: start-up environment and what a run shows *)

Module BridgeRun.
Import Bridge.

(** [env(key, required)] over [process.env]: the value trimmed, and an error
    for a required variable that is then empty. *)
Definition env (process_env : gmap string string) (key : string) (required : bool)
    : result string :=
  let v := JS.trim (JS.or_str (process_env !! key) "") in
  if negb (JS.truthy_str v) && required then Err ("Missing env " ++ key)
  else Ok v.

Abbreviation event := (Runs.event op resp).

Definition ops_of (t : list event) : list op := map (@projT1 op resp) t.

(** The audit rows written along a run, in order. *)
Definition rows (t : list event) : list MessageLogInsert :=
  flat_map (fun o => match o with InsertMessageLog row => [row] | _ => [] end) (ops_of t).

Definition inbound_rows (t : list event) : list MessageLogInsert :=
  List.filter (fun row => match direction row with inbound => true | outbound => false end)
    (rows t).

Definition outbound_rows (t : list event) : list MessageLogInsert :=
  List.filter (fun row => match direction row with outbound => true | inbound => false end)
    (rows t).

(** The messages sent along a run: destination and text. *)
Definition sends (t : list event) : list (string * string) :=
  flat_map (fun o => match o with SendMessage dest text => [(dest, text)] | _ => [] end)
    (ops_of t).

(** The log lines of a run. *)
Definition logs (t : list event) : list (Level * string) :=
  flat_map (fun o => match o with Log level msg => [(level, msg)] | _ => [] end) (ops_of t).

(** What the webhook calls of a run were answered. *)
Definition fetch_answers (t : list event) : list (result Response) :=
  flat_map
    (fun e : event =>
       match e with
       | existT o x =>
           match o return resp o -> list (result Response) with
           | Fetch _ _ _ => fun x => [x]
           | _ => fun _ => []
           end x
       end) t.

(** What the sends of a run were answered. *)
Definition send_answers (t : list event) : list (result unit) :=
  flat_map
    (fun e : event =>
       match e with
       | existT o x =>
           match o return resp o -> list (result unit) with
           | SendMessage _ _ => fun x => [x]
           | _ => fun _ => []
           end x
       end) t.

(** What the settings queries of a run were answered. *)
Definition settings_answers (t : list event) : list (QueryResult AppSettingsRow) :=
  flat_map
    (fun e : event =>
       match e with
       | existT o x =>
           match o return resp o -> list (QueryResult AppSettingsRow) with
           | SelectAppSettings => fun x => [x]
           | _ => fun _ => []
           end x
       end) t.

Definition rules_answers (t : list event) : list (QueryResult (list EntityRuleRow)) :=
  flat_map
    (fun e : event =>
       match e with
       | existT o x =>
           match o return resp o -> list (QueryResult (list EntityRuleRow)) with
           | SelectEntityRules => fun x => [x]
           | _ => fun _ => []
           end x
       end) t.

(** What [sock.authState.creds.registered] read, and what the pairing
    requests were answered. *)
Definition registered_answers (t : list event) : list bool :=
  flat_map
    (fun e : event =>
       match e with
       | existT o x =>
           match o return resp o -> list bool with
           | CredsRegistered => fun x => [x]
           | _ => fun _ => []
           end x
       end) t.

Definition pairing_answers (t : list event) : list (result string) :=
  flat_map
    (fun e : event =>
       match e with
       | existT o x =>
           match o return resp o -> list (result string) with
           | RequestPairingCode _ => fun x => [x]
           | _ => fun _ => []
           end x
       end) t.

(** What [sock.user?.id] read. *)
Definition user_answers (t : list event) : list (option string) :=
  flat_map
    (fun e : event =>
       match e with
       | existT o x =>
           match o return resp o -> list (option string) with
           | SockUserId => fun x => [x]
           | _ => fun _ => []
           end x
       end) t.

Definition save_answers (t : list event) : list (result unit) :=
  flat_map
    (fun e : event =>
       match e with
       | existT o x =>
           match o return resp o -> list (result unit) with
           | SaveCreds => fun x => [x]
           | _ => fun _ => []
           end x
       end) t.

End BridgeRun.

(** ** Example/use-supabase-auth-state.ts *)

Module SupabaseAuth.

Record KeyRow : Type := {
  instance_id : string;
  type : string;
  id : string;
  data : JS.value (* unknown | null *)
}.

Inductive op : Type :=
| SelectKeys (instanceId type : string) (ids : list string).

Definition resp (o : op) : Type :=
  match o with
  | SelectKeys _ _ _ => Bridge.QueryResult (list KeyRow)
  end.

Abbreviation prog := (Prog.prog op resp).

Definition call (o : op) : prog (resp o) := Prog.call o.

(** The object [out] that [keys.get] fills and returns: the properties it
    owns, and its prototype.  [{}] owns nothing and has [Object.prototype]
    as its prototype. *)
Inductive Prototype : Type :=
| ObjectPrototype
| NullPrototype
| ValuePrototype (parent : JS.value).

Record Out : Type := {
  own : gmap string JS.value;
  prototype : Prototype
}.

(** [CreateDataProperty(out, id, value)]. *)
Definition define_own (out : Out) (id : string) (value : JS.value) : Out :=
  {| own := <[id := value]> (own out); prototype := prototype out |}.

(** The setter of [Object.prototype.__proto__] on [out]: an object or [null]
    becomes the prototype of [out]; any other value is ignored.  No property
    of [out] is defined. *)
Definition set_prototype (out : Out) (value : JS.value) : Out :=
  match value with
  | JS.Null => {| own := own out; prototype := NullPrototype |}
  | JS.Buffer _ | JS.Arr _ | JS.Obj _ =>
      {| own := own out; prototype := ValuePrototype value |}
  | JS.Bool _ | JS.Num _ | JS.Str _ => out
  end.

Section KeyStore.

(** [JSON.parse(JSON.stringify(data), BufferJSON.reviver)], with the
    transport library's reviver. *)
Variable jsonDecode : JS.value -> JS.value.

(** [proto.Message.AppStateSyncKeyData.fromObject]. *)
Variable fromObject : JS.value -> JS.value.

(** The value the loop of [keys.get] stores under [id]. *)
Definition key_value (type : string) (rows : list KeyRow) (id : string) : JS.value :=
  let row := List.find (fun r => String.eqb (SupabaseAuth.id r) id) rows in
  let value :=
    match row with
    | Some r => if JS.truthy (data r) then jsonDecode (data r) else JS.Null
    | None => JS.Null
    end in
  if String.eqb type "app-state-sync-key" && JS.truthy value
  then fromObject value else value.

(** [parent.[[Set]](id, value, out)] for a decoded value [parent] that has
    become the prototype of [out]: what the assignment does to [out] along
    the property chain of [parent], which depends on the class of [parent]
    (a plain object, a [Buffer], a protobuf message); the error is the
    [TypeError] of an assignment that module code may not make (an inherited
    getter without setter, a read-only property). *)
Variable set_inherited : JS.value -> string -> JS.value -> Out -> result Out.

(** [out[id] = value], the language's ordinary [[Set]] on [out].  A
    property [out] owns is overwritten.  Otherwise the prototype decides:
    [Object.prototype] has one accessor, [__proto__], whose setter runs
    instead of a definition, and only writable data properties besides it,
    so every other key is defined on [out]; without a prototype every key is
    defined on [out]. *)
Definition assign (out : Out) (id : string) (value : JS.value) : result Out :=
  match own out !! id with
  | Some _ => Ok (define_own out id value)
  | None =>
      match prototype out with
      | ObjectPrototype =>
          if String.eqb id "__proto__" then Ok (set_prototype out value)
          else Ok (define_own out id value)
      | NullPrototype => Ok (define_own out id value)
      | ValuePrototype parent => set_inherited parent id value out
      end
  end.

(** [for (const id of ids) { ... out[id] = value }]. *)
Fixpoint fill (type : string) (rows : list KeyRow) (ids : list string) (out : Out)
    : result Out :=
  match ids with
  | [] => Ok out
  | id :: rest =>
      match assign out id (key_value type rows id) with
      | Ok assigned => fill type rows rest assigned
      | Err e => Err e
      end
  end.

(** [state.keys.get]. *)
Definition keys_get (instanceId type : string) (ids : list string) : prog Out :=
  let out : Out := {| own := ∅; prototype := ObjectPrototype |} in
  if Nat.eqb (length ids) 0 then Ret out
  else
    let! selected := call (SelectKeys instanceId type ids) in
    match Bridge.error selected with
    | Some message => Throw ("Failed to load wa_auth_keys: " ++ message)
    | None =>
        let rows := default [] (Bridge.data selected) in
        settle (fill type rows ids out)
    end.

End KeyStore.

End SupabaseAuth.

(** ** Example/use-supabase-auth-state.ts: credentials and key writes *)

Module SupabaseStore.
Import SupabaseAuth.

Record CredsRow : Type := {
  creds_instance_id : string;
  creds : JS.value
}.

Inductive op : Type :=
| SelectCreds (instanceId : string)
| InitAuthCreds
| UpsertCreds (instanceId : string) (creds : JS.value)
| UpsertKeys (rows : list KeyRow)
| DeleteKey (instanceId type id : string).

Definition resp (o : op) : Type :=
  match o with
  | SelectCreds _ => Bridge.QueryResult CredsRow
  | InitAuthCreds => JS.value
  | UpsertCreds _ _ | UpsertKeys _ | DeleteKey _ _ _ => Bridge.QueryResult unit
  end.

Abbreviation prog := (Prog.prog op resp).

Definition call (o : op) : prog (resp o) := Prog.call o.

Section Store.

(** [JSON.parse(JSON.stringify(data, BufferJSON.replacer))] and
    [JSON.parse(JSON.stringify(data), BufferJSON.reviver)], with the
    transport library's replacer and reviver. *)
Variable jsonEncode : JS.value -> JS.value.
Variable jsonDecode : JS.value -> JS.value.

Variable instanceId : string.

Definition loadCreds : prog JS.value :=
  let! selected := call (SelectCreds instanceId) in
  match Bridge.error selected with
  | Some message => Throw ("Failed to load wa_auth_creds: " ++ message)
  | None =>
      let stored :=
        match Bridge.data selected with
        | Some row => creds row
        | None => JS.Null
        end in
      if negb (JS.truthy stored) then
        let! fresh := call InitAuthCreds in
        let! upserted := call (UpsertCreds instanceId (jsonEncode fresh)) in
        match Bridge.error upserted with
        | Some message => Throw ("Failed to init wa_auth_creds: " ++ message)
        | None => Ret fresh
        end
      else Ret (jsonDecode stored)
  end.

(** [saveCreds], for the credentials object as it is when it is called. *)
Definition saveCreds (current : JS.value) : prog unit :=
  let! upserted := call (UpsertCreds instanceId (jsonEncode current)) in
  match Bridge.error upserted with
  | Some message => Throw ("Failed to save wa_auth_creds: " ++ message)
  | None => Ret tt
  end.

(** The argument of [keys.set]: categories in [for ... in] order, each with
    its ids in that order; a value that is [null] or [undefined] is
    [JS.Null]. *)
Definition KeyData : Type := list (string * list (string * JS.value)).

(** The inner loop of [keys.set] over one category. *)
Fixpoint sort_ids (category : string) (ids : list (string * JS.value))
    (acc : list KeyRow * list (string * string)) : list KeyRow * list (string * string) :=
  match ids with
  | [] => acc
  | (key, value) :: rest =>
      sort_ids category rest
        (if JS.truthy value then
           ((fst acc ++ [{| instance_id := instanceId; type := category; id := key;
                            data := jsonEncode value |}])%list, snd acc)
         else (fst acc, (snd acc ++ [(category, key)])%list))
  end.

(** The outer loop: the [upserts] and [deletes] arrays. *)
Fixpoint sort_categories (data : KeyData)
    (acc : list KeyRow * list (string * string)) : list KeyRow * list (string * string) :=
  match data with
  | [] => acc
  | (category, ids) :: rest => sort_categories rest (sort_ids category ids acc)
  end.

(** Delete one-by-one. *)
Fixpoint delete_each (deletes : list (string * string)) : prog unit :=
  match deletes with
  | [] => Ret tt
  | (category, key) :: rest =>
      let! deleted := call (DeleteKey instanceId category key) in
      match Bridge.error deleted with
      | Some message => Throw ("Failed to delete wa_auth_keys: " ++ message)
      | None => delete_each rest
      end
  end.

(** [state.keys.set]. *)
Definition keys_set (data : KeyData) : prog unit :=
  let '(upserts, deletes) := sort_categories data ([], []) in
  let! _ :=
    if negb (Nat.eqb (length upserts) 0) then
      let! upserted := call (UpsertKeys upserts) in
      match Bridge.error upserted with
      | Some message => Throw ("Failed to upsert wa_auth_keys: " ++ message)
      | None => Ret tt
      end
    else Ret tt in
  delete_each deletes.

End Store.

(** *** The tables behind the store

    A datastore that holds the two tables as the schema declares them and
    never fails: [wa_auth_creds] has one row per instance id,
    [wa_auth_keys] one row per (instance id, type, id); an upsert replaces
    the row with the same key and a delete removes it. *)

Record Tables : Type := {
  wa_auth_creds : gmap string JS.value;
  wa_auth_keys : gmap (string * string * string) JS.value
}.

Definition succeeded {A} (a : option A) : Bridge.QueryResult A :=
  {| Bridge.data := a; Bridge.error := None |}.

Definition upsert_key (keys : gmap (string * string * string) JS.value) (row : KeyRow)
    : gmap (string * string * string) JS.value :=
  <[(instance_id row, type row, id row) := data row]> keys.

(** What the tables answer to a write-side operation, and what they are
    afterwards; [fresh] is what [initAuthCreds] makes. *)
Definition write (fresh : JS.value) (o : op) (tables : Tables) : resp o * Tables :=
  match o return resp o * Tables with
  | SelectCreds instance =>
      (succeeded ((fun stored => {| creds_instance_id := instance; creds := stored |})
                    <$> wa_auth_creds tables !! instance),
       tables)
  | InitAuthCreds => (fresh, tables)
  | UpsertCreds instance stored =>
      (succeeded None,
       {| wa_auth_creds := <[instance := stored]> (wa_auth_creds tables);
          wa_auth_keys := wa_auth_keys tables |})
  | UpsertKeys rows =>
      (succeeded None,
       {| wa_auth_creds := wa_auth_creds tables;
          wa_auth_keys := fold_left upsert_key rows (wa_auth_keys tables) |})
  | DeleteKey instance type id =>
      (succeeded None,
       {| wa_auth_creds := wa_auth_creds tables;
          wa_auth_keys := delete (instance, type, id) (wa_auth_keys tables) |})
  end.

(** A write-side program run against the tables. *)
Fixpoint run_writes {A} (fresh : JS.value) (p : prog A) (tables : Tables)
    : result A * Tables :=
  match p with
  | Ret a => (Ok a, tables)
  | Throw e => (Err e, tables)
  | Call o k =>
      let '(answer, tables') := write fresh o tables in
      run_writes fresh (k answer) tables'
  end.

(** The rows a key query selects: those of the instance and type whose id is
    among the requested ones, each once. *)
Definition select_keys (tables : Tables) (instance type : string) (ids : list string)
    : list KeyRow :=
  omap (fun id =>
          (fun stored => {| instance_id := instance; SupabaseAuth.type := type;
                            SupabaseAuth.id := id; data := stored |})
            <$> wa_auth_keys tables !! (instance, type, id))
       (remove_dups ids).

(** [keys.get] run against the tables. *)
Definition read_world (tables : Tables) : world SupabaseAuth.op SupabaseAuth.resp :=
  fun o =>
    match o return SupabaseAuth.resp o with
    | SelectKeys instance type ids => succeeded (Some (select_keys tables instance type ids))
    end.

(** The operations of a run, the answers to its credential queries, the
    credentials [initAuthCreds] made, and the errors the answers to its
    writes reported. *)
Definition ops_of (t : list (Runs.event op resp)) : list op := map (@projT1 op resp) t.

Definition creds_answers (t : list (Runs.event op resp))
    : list (Bridge.QueryResult CredsRow) :=
  flat_map
    (fun e : Runs.event op resp =>
       match e with
       | existT o x =>
           match o return resp o -> list (Bridge.QueryResult CredsRow) with
           | SelectCreds _ => fun x => [x]
           | _ => fun _ => []
           end x
       end) t.

Definition init_answers (t : list (Runs.event op resp)) : list JS.value :=
  flat_map
    (fun e : Runs.event op resp =>
       match e with
       | existT o x =>
           match o return resp o -> list JS.value with
           | InitAuthCreds => fun x => [x]
           | _ => fun _ => []
           end x
       end) t.

Definition write_errors (t : list (Runs.event op resp)) : list (option string) :=
  flat_map
    (fun e : Runs.event op resp =>
       match e with
       | existT o x =>
           match o return resp o -> list (option string) with
           | UpsertCreds _ _ | UpsertKeys _ | DeleteKey _ _ _ => fun x => [Bridge.error x]
           | _ => fun _ => []
           end x
       end) t.

(** The entries of a [keys.set] argument, flattened in loop order. *)
Definition entries (data : KeyData) : list (string * string * JS.value) :=
  flat_map (fun '(category, ids) => map (fun '(id, value) => (category, id, value)) ids)
    data.

(** The rows of the entries that hold a truthy value, and the keys of the
    others, each in the order of the entries. *)
Definition upserts_of (jsonEncode : JS.value -> JS.value) (instanceId : string)
    (es : list (string * string * JS.value)) : list KeyRow :=
  flat_map (fun '(category, key, value) =>
              if JS.truthy value then
                [{| instance_id := instanceId; SupabaseAuth.type := category;
                    SupabaseAuth.id := key; data := jsonEncode value |}]
              else []) es.

Definition deletes_of (es : list (string * string * JS.value)) : list (string * string) :=
  flat_map (fun '(category, key, value) =>
              if JS.truthy value then [] else [(category, key)]) es.

(** One batched upsert of all rows when there is any, then one delete per
    key. *)
Definition planned (jsonEncode : JS.value -> JS.value) (instanceId : string)
    (data : KeyData) : list op :=
  (match upserts_of jsonEncode instanceId (entries data) with
   | [] => []
   | rows => [UpsertKeys rows]
   end
   ++ map (fun '(category, key) => DeleteKey instanceId category key)
        (deletes_of (entries data)))%list.

End SupabaseStore.

(** ** Sample data *)

Module Samples.
Import Bridge.

Definition settings_of (mode groupsRule : string) : AppSettingsRow :=
  {| ignore_from_me := true;
     contacts_mode := mode;
     groups_default_rule := groupsRule;
     reply_send_to := "sameChat";
     reply_prefix := "[bot] " |}.

Definition entity (j kind r : string) : EntityRuleRow :=
  {| jid := j; type := kind; name := "Team"; rule := r |}.

Definition group_jid : string := "120363041234567890@g.us".
Definition contact_jid : string := "15551234567@s.whatsapp.net".

(** A configuration with one group and one contact override. *)
Definition config (mode groupsRule groupRule contactRule : string) : RuntimeConfig :=
  {| settings := settings_of mode groupsRule;
     contacts := {[ contact_jid := entity contact_jid "contact" contactRule ]};
     groups := {[ group_jid := entity group_jid "group" groupRule ]} |}.

(** An extended text message that mentions the given identifiers. *)
Definition mentioning (body : string) (ids : list string) : IMessage :=
  {| conversation := None;
     extendedTextMessage :=
       Some {| text := Some body;
               ext_contextInfo := Some {| mentionedJid := Some ids |} |};
     imageMessage := None;
     videoMessage := None;
     documentMessage := None |}.

Definition close_event (code : option Z) : Events :=
  {| connection_update :=
       Some {| connection := Some "close";
               lastDisconnect := Some {| statusCode := code |} |};
     creds_update := false;
     messages_upsert := None |}.

(** An outside world at clock reading [now]: the session is not registered,
    the datastore holds [settings] and [rules], the webhook answers an empty
    object, and nothing fails. *)
Definition world_at (now : Z) (settings : AppSettingsRow) (rules : list EntityRuleRow)
    : world op resp :=
  fun o =>
    match o return resp o with
    | DateNow => now
    | SelectAppSettings => {| data := Some settings; error := None |}
    | SelectEntityRules => {| data := Some rules; error := None |}
    | Fetch _ _ _ =>
        Ok {| status := 200%N; res_text := Ok "{}"; res_json := Ok (JS.Obj []) |}
    | InsertMessageLog _ => {| data := None; error := None |}
    | RandomUUID => "3f2c8a4e-0000-4000-8000-000000000001"
    | NowISOString => "2025-01-01T00:00:00.000Z"
    | UseMultiFileAuthState _ | FetchLatestBaileysVersion | SaveCreds
    | SendMessage _ _ => Ok tt
    | CredsRegistered => false
    | SockUserId => Some "4915550001111:7@s.whatsapp.net"
    | RequestPairingCode _ => Ok "ABCD-1234"
    | SetAbortTimer _ | ClearAbortTimer | Log _ _ | MakeWASocket | Sleep _
    | EvProcess | SetTimeout _ _ => tt
    end.

(** The same world with another answer of the webhook. *)
Definition with_fetch (fetched : result Response) (w : world op resp) : world op resp :=
  fun o =>
    match o return resp o with
    | Fetch _ _ _ => fetched
    | o' => w o'
    end.

(** The same world with a datastore that refuses every audit row. *)
Definition with_failing_insert (w : world op resp) : world op resp :=
  fun o =>
    match o return resp o with
    | InsertMessageLog _ => {| data := None; error := Some "connection refused" |}
    | o' => w o'
    end.

Definition payload : N8nWebhookPayload :=
  {| requestId := "3f2c8a4e-0000-4000-8000-000000000001";
     receivedAt := "2025-01-01T00:00:00.000Z";
     chatJid := contact_jid;
     senderJid := Some contact_jid;
     isGroup := false;
     messageId := Some "3EB0A1B2C3";
     messageTimestamp := Some 1735689600%Z;
     payload_text := Some "hello" |}.

Definition inbound_row : MessageLogInsert :=
  {| direction := inbound;
     chat_jid := contact_jid;
     sender_jid := Some contact_jid;
     message_id := Some "3EB0A1B2C3";
     log_text := Some "hello";
     automated := true;
     n8n_request_id := None;
     n8n_status := None;
     n8n_error := None |}.

(** A text message in the group, from a sender the transport did not
    name. *)
Definition group_message : WAMessage :=
  {| key := {| remoteJid := Some group_jid; fromMe := Some false;
               participant := None; id := Some "3EB0A1B2C3" |};
     message := Some (mentioning "hi @bot" ["4915550001111@s.whatsapp.net"]);
     wa_messageTimestamp := Some (TsNumber 1735689600) |}.



(** Stand-ins for the two decoders: each wraps its argument under a tag. *)
Definition tag_revived (v : JS.value) : JS.value := JS.Obj [("revived", v)].
Definition tag_proto (v : JS.value) : JS.value := JS.Obj [("AppStateSyncKeyData", v)].

Definition rules : list EntityRuleRow :=
  [entity group_jid "group" "mentionOnly"; entity contact_jid "contact" "disabled"].

(** The datastore content stays the same; only the clock moves. *)
Definition clock_world (now : Z) : world op resp :=
  world_at now (settings_of "denylist" "disabled") rules.

(** The snapshot a load makes of that datastore, and the cache after a load
    at [now]. *)
Definition snapshot : RuntimeConfig :=
  {| settings := settings_of "denylist" "disabled";
     contacts := {[ contact_jid := entity contact_jid "contact" "disabled" ]};
     groups := {[ group_jid := entity group_jid "group" "mentionOnly" ]} |}.

Definition loaded_at (now : Z) : RuntimeCache :=
  {| cfg := Some snapshot; loadedAt := now; ttlMs := 4000 |}.

(** A disconnect that is not a log-out: status code 428. *)
Definition transient : Events := close_event (Some 428%Z).

Definition tag_encoded (v : JS.value) : JS.value := JS.Obj [("encoded", v)].

(** Decoded values that are plain objects without the assigned key: as a
    prototype they let the key be defined on the receiver. *)
Definition set_plain (parent : JS.value) (id : string) (value : JS.value)
    (out : SupabaseAuth.Out) : result SupabaseAuth.Out :=
  Ok (SupabaseAuth.define_own out id value).

Definition key_data : SupabaseStore.KeyData :=
  [("pre-key", [("1", JS.Str "private"); ("2", JS.Null)]);
   ("app-state-sync-key", [("AAAA", JS.Obj [("keyData", JS.Str "k")])])].

Definition tables : SupabaseStore.Tables :=
  {| SupabaseStore.wa_auth_creds := ∅;
     SupabaseStore.wa_auth_keys := {[ ("default", "pre-key", "2") := JS.Str "old" ]} |}.

End Samples.

(** ** RuleEngine *)

Module RuleEngineSpec.
Import Bridge.

Lemma includes_In (l : list string) (x : string) : JS.includes l x = true <-> In x l.
Proof.
  unfold JS.includes. rewrite existsb_exists. split.
  - intros (y & Hy & Heq). apply String.eqb_eq in Heq. now subst.
  - intros H. exists x. split; [exact H | apply String.eqb_refl].
Qed.

Lemma truthy_str_spec (s : string) : JS.truthy_str s = true <-> s <> "".
Proof.
  unfold JS.truthy_str. destruct (String.eqb_spec s ""); simpl; split; congruence.
Qed.

(** The mention test of [isMentioningMe]: message and own identifier are
    there, the identifier is not empty, and its normal form is among the
    normal forms of the mentioned identifiers. *)
Lemma isMentioningMe_spec (norm : string -> string) (msg : option IMessage)
    (myJid : option string) :
  isMentioningMe norm msg myJid = true <->
  exists m self, msg = Some m /\ myJid = Some self /\ self <> ""
                 /\ In (norm self) (map norm (mentioned m)).
Proof.
  unfold isMentioningMe. destruct msg as [m|], myJid as [self|].
  - destruct (JS.truthy_str self) eqn:Hs; simpl.
    + rewrite includes_In. apply truthy_str_spec in Hs. split.
      * intros H. exists m, self. auto.
      * intros (m' & self' & Hm & Hj & _ & Hin). congruence.
    + split; [discriminate|].
      intros (m' & self' & _ & Hj & Hne & _). injection Hj as <-.
      apply truthy_str_spec in Hne. congruence.
  - split; [discriminate | intros (? & ? & _ & ? & _); discriminate].
  - split; [discriminate | intros (? & ? & ? & _); discriminate].
  - split; [discriminate | intros (? & ? & ? & _); discriminate].
Qed.

(** The rule [resolveFinalGroupRule] ends up comparing. *)
Lemma finalRule_spec (cfg : RuntimeConfig) (chatJid : string) :
  let override := groups cfg !! chatJid in
  JS.or_str
    (if JS.truthy_opt (rule <$> override)
        && negb (String.eqb (default "" (rule <$> override)) "default")
     then rule <$> override else None)
    (groups_default_rule (settings cfg))
  = match override with
    | Some row =>
        if decide (rule row = "" \/ rule row = "default")
        then groups_default_rule (settings cfg) else rule row
    | None => groups_default_rule (settings cfg)
    end.
Proof.
  simpl. destruct (groups cfg !! chatJid) as [row|]; simpl; [|reflexivity].
  unfold JS.truthy_str.
  destruct (String.eqb_spec (rule row) ""), (String.eqb_spec (rule row) "default");
    simpl; case_decide; try reflexivity; try tauto.
  unfold JS.truthy_str. destruct (String.eqb_spec (rule row) ""); simpl; congruence.
Qed.

(** C1, as amended: on a group chat the effective rule is the chat's
    override when it is present, not empty and not 'default', else the global
    [groups_default_rule]; the decision is false for 'disabled', true for
    'enabled', for 'mentionOnly' true exactly when message and own identifier
    are present, the identifier is not empty and its normal form is in the
    normalised mention list, and false for every other value. *)
Theorem shouldAutomate_group (norm : string -> string) (cfg : RuntimeConfig)
    (chatJid : string) (msg : option IMessage) (myJid : option string) :
  let base := groups_default_rule (settings cfg) in
  let effective :=
    match groups cfg !! chatJid with
    | Some row => if decide (rule row = "" \/ rule row = "default") then base else rule row
    | None => base
    end in
  let decision := shouldAutomate norm cfg chatJid true msg myJid in
  (effective = "disabled" -> decision = false)
  /\ (effective = "enabled" -> decision = true)
  /\ (effective = "mentionOnly" ->
      (decision = true <->
       exists m self, msg = Some m /\ myJid = Some self /\ self <> ""
                      /\ In (norm self) (map norm (mentioned m))))
  /\ (effective <> "disabled" -> effective <> "enabled" -> effective <> "mentionOnly" ->
      decision = false).
Proof.
  intros base effective decision.
  assert (Hd : decision =
            if String.eqb effective "disabled" then false
            else if String.eqb effective "enabled" then true
            else if String.eqb effective "mentionOnly" then isMentioningMe norm msg myJid
            else false).
  { subst decision effective base. unfold shouldAutomate, resolveFinalGroupRule.
    cbv zeta. rewrite (finalRule_spec cfg chatJid). reflexivity. }
  rewrite Hd. repeat split.
  - intros ->. reflexivity.
  - intros ->. reflexivity.
  - rewrite H. simpl. apply isMentioningMe_spec.
  - rewrite H. simpl. apply isMentioningMe_spec.
  - intros H1 H2 H3.
    destruct (String.eqb_spec effective "disabled"); [congruence|].
    destruct (String.eqb_spec effective "enabled"); [congruence|].
    destruct (String.eqb_spec effective "mentionOnly"); [congruence|reflexivity].
Qed.

(** C1 as stated fails in two places.  An override row whose rule is the
    empty string is present and not 'default', and the empty string is none
    of the three rules, yet the decision follows the global rule (here
    'enabled') rather than being false.  And under 'mentionOnly' an empty own
    identifier never matches, although its normal form is in the normalised
    mention list. *)
Lemma shouldAutomate_group_counterexample :
  (forall norm : string -> string,
   let cfg := Samples.config "denylist" "enabled" "" "default" in
   let stated_effective :=
     match groups cfg !! Samples.group_jid with
     | Some row =>
         if decide (rule row = "default") then groups_default_rule (settings cfg)
         else rule row
     | None => groups_default_rule (settings cfg)
     end in
   let decision := shouldAutomate norm cfg Samples.group_jid true None None in
   stated_effective = "" /\ decision = true
   /\ ~ (stated_effective <> "disabled" -> stated_effective <> "enabled" ->
         stated_effective <> "mentionOnly" -> decision = false))
  /\
  (forall norm : string -> string,
   let cfg := Samples.config "denylist" "mentionOnly" "default" "default" in
   let msg := Samples.mentioning "hello" [""] in
   let decision := shouldAutomate norm cfg Samples.group_jid true (Some msg) (Some "") in
   In (norm "") (map norm (mentioned msg)) /\ decision = false
   /\ ~ (decision = true <-> In (norm "") (map norm (mentioned msg)))).
Proof.
  split; intros norm.
  - assert (E : shouldAutomate norm (Samples.config "denylist" "enabled" "" "default")
                  Samples.group_jid true None None = true) by (vm_compute; reflexivity).
    cbv zeta. rewrite E. split; [vm_compute; reflexivity|]. split; [reflexivity|].
    intros H. assert (true = false); [|discriminate].
    apply H; vm_compute; discriminate.
  - assert (E : shouldAutomate norm
                  (Samples.config "denylist" "mentionOnly" "default" "default")
                  Samples.group_jid true (Some (Samples.mentioning "hello" [""])) (Some "")
                = false) by (vm_compute; reflexivity).
    cbv zeta. rewrite E. split; [left; reflexivity|]. split; [reflexivity|].
    intros [_ H]. assert (false = true); [|discriminate].
    apply H. left. reflexivity.
Qed.

(** The amended C1 at a group whose override is 'mentionOnly' and a message
    that mentions the bridge. *)
Lemma shouldAutomate_group_witness :
  shouldAutomate (fun j => j) (Samples.config "denylist" "disabled" "mentionOnly" "default")
    Samples.group_jid true
    (Some (Samples.mentioning "hi @bot" ["4915550001111@s.whatsapp.net"]))
    (Some "4915550001111@s.whatsapp.net") = true.
Proof.
  apply (proj1 (proj2 (proj2 (shouldAutomate_group (fun j => j)
           (Samples.config "denylist" "disabled" "mentionOnly" "default")
           Samples.group_jid
           (Some (Samples.mentioning "hi @bot" ["4915550001111@s.whatsapp.net"]))
           (Some "4915550001111@s.whatsapp.net"))))).
  - vm_compute. reflexivity.
  - eexists _, _. split; [reflexivity|]. split; [reflexivity|]. split; [discriminate|].
    left. reflexivity.
Defined.

(** The override [shouldAutomate] compares on a direct chat. *)
Lemma direct_override_spec (cfg : RuntimeConfig) (chatJid : string) :
  let ruleRow := contacts cfg !! chatJid in
  (if JS.truthy_opt (rule <$> ruleRow)
      && negb (String.eqb (default "" (rule <$> ruleRow)) "default")
   then default "" (rule <$> ruleRow) else "default")
  = match ruleRow with
    | Some row => if decide (rule row = "") then "default" else rule row
    | None => "default"
    end.
Proof.
  simpl. destruct (contacts cfg !! chatJid) as [row|]; simpl; [|reflexivity].
  unfold JS.truthy_str.
  destruct (String.eqb_spec (rule row) ""), (String.eqb_spec (rule row) "default");
    simpl; case_decide; congruence.
Qed.

(** C2: in 'allowlist' mode a direct chat is automated exactly when its
    override row exists and carries the rule 'enabled'; every other override
    value, and a chat with no row, gives false. *)
Theorem shouldAutomate_allowlist (norm : string -> string) (cfg : RuntimeConfig)
    (chatJid : string) (msg : option IMessage) (myJid : option string) :
  contacts_mode (settings cfg) = "allowlist" ->
  (shouldAutomate norm cfg chatJid false msg myJid = true <->
   rule <$> contacts cfg !! chatJid = Some "enabled")
  /\ (rule <$> contacts cfg !! chatJid <> Some "enabled" ->
      shouldAutomate norm cfg chatJid false msg myJid = false).
Proof.
  intros Hmode.
  assert (E : shouldAutomate norm cfg chatJid false msg myJid = true <->
              rule <$> contacts cfg !! chatJid = Some "enabled").
  { unfold shouldAutomate. cbv zeta. rewrite Hmode, (direct_override_spec cfg chatJid).
    simpl. destruct (contacts cfg !! chatJid) as [row|]; simpl.
    - case_decide as He.
      + rewrite He. split; discriminate.
      + rewrite String.eqb_eq. split; congruence.
    - split; discriminate. }
  split; [exact E|].
  intros Hne. destruct (shouldAutomate norm cfg chatJid false msg myJid) eqn:Hd;
    [|reflexivity].
  exfalso. apply Hne, E. reflexivity.
Qed.

Lemma shouldAutomate_allowlist_witness :
  shouldAutomate (fun j => j) (Samples.config "allowlist" "disabled" "default" "enabled")
    Samples.contact_jid false None None = true
  /\ shouldAutomate (fun j => j) (Samples.config "allowlist" "disabled" "default" "mentionOnly")
       Samples.contact_jid false None None = false.
Proof.
  split.
  - apply (proj1 (shouldAutomate_allowlist (fun j => j)
             (Samples.config "allowlist" "disabled" "default" "enabled")
             Samples.contact_jid None None eq_refl)).
    vm_compute. reflexivity.
  - apply (proj2 (shouldAutomate_allowlist (fun j => j)
             (Samples.config "allowlist" "disabled" "default" "mentionOnly")
             Samples.contact_jid None None eq_refl)).
    vm_compute. discriminate.
Defined.

(** C3: in 'denylist' mode a direct chat is refused exactly when its
    override row exists and carries the rule 'disabled'; every other override
    value, and a chat with no row, gives true. *)
Theorem shouldAutomate_denylist (norm : string -> string) (cfg : RuntimeConfig)
    (chatJid : string) (msg : option IMessage) (myJid : option string) :
  contacts_mode (settings cfg) = "denylist" ->
  (shouldAutomate norm cfg chatJid false msg myJid = false <->
   rule <$> contacts cfg !! chatJid = Some "disabled")
  /\ (rule <$> contacts cfg !! chatJid <> Some "disabled" ->
      shouldAutomate norm cfg chatJid false msg myJid = true).
Proof.
  intros Hmode.
  assert (E : shouldAutomate norm cfg chatJid false msg myJid = false <->
              rule <$> contacts cfg !! chatJid = Some "disabled").
  { unfold shouldAutomate. cbv zeta. rewrite Hmode, (direct_override_spec cfg chatJid).
    simpl. destruct (contacts cfg !! chatJid) as [row|]; simpl.
    - case_decide as He.
      + rewrite He. simpl. split; discriminate.
      + destruct (String.eqb_spec (rule row) "disabled") as [Hr|Hr].
        * rewrite Hr. split; reflexivity.
        * split; [discriminate | congruence].
    - split; discriminate. }
  split; [exact E|].
  intros Hne. destruct (shouldAutomate norm cfg chatJid false msg myJid) eqn:Hd;
    [reflexivity|].
  exfalso. apply Hne, E. reflexivity.
Qed.

Lemma shouldAutomate_denylist_witness :
  shouldAutomate (fun j => j) (Samples.config "denylist" "disabled" "default" "disabled")
    Samples.contact_jid false None None = false
  /\ shouldAutomate (fun j => j) (Samples.config "denylist" "disabled" "default" "mentionOnly")
       "unknown@s.whatsapp.net" false None None = true.
Proof.
  split.
  - apply (proj1 (shouldAutomate_denylist (fun j => j)
             (Samples.config "denylist" "disabled" "default" "disabled")
             Samples.contact_jid None None eq_refl)).
    vm_compute. reflexivity.
  - apply (proj2 (shouldAutomate_denylist (fun j => j)
             (Samples.config "denylist" "disabled" "default" "mentionOnly")
             "unknown@s.whatsapp.net" None None eq_refl)).
    vm_compute. discriminate.
Defined.

End RuleEngineSpec.

(** ** Facts about programs *)

Module ProgFacts.
Section ProgFacts.
Context {op : Type} {resp : op -> Type}.
Implicit Types w : world op resp.

Lemma bind_Ret {A B} (a : A) (f : A -> prog op resp B) : bind (Ret a) f = f a.
Proof. reflexivity. Qed.

Lemma exec_bind {A B} w (p : prog op resp A) (f : A -> prog op resp B) :
  exec w (bind p f) =
  match exec w p with
  | (Ok a, t) => let '(r, t') := exec w (f a) in (r, (t ++ t')%list)
  | (Err e, t) => (Err e, t)
  end.
Proof.
  induction p as [a|e|o k IH]; simpl.
  - destruct (exec w (f a)). reflexivity.
  - reflexivity.
  - rewrite IH. destruct (exec w (k (w o))) as [[a|e] t]; [|reflexivity].
    destruct (exec w (f a)). reflexivity.
Qed.

Lemma exec_try_catch {A} w (p : prog op resp A) (h : string -> prog op resp A) :
  exec w (try_catch p h) =
  match exec w p with
  | (Ok a, t) => (Ok a, t)
  | (Err e, t) => let '(r, t') := exec w (h e) in (r, (t ++ t')%list)
  end.
Proof.
  induction p as [a|e|o k IH]; simpl.
  - reflexivity.
  - destruct (exec w (h e)). reflexivity.
  - rewrite IH. destruct (exec w (k (w o))) as [[a|e] t]; [reflexivity|].
    destruct (exec w (h e)). reflexivity.
Qed.

Lemma never_throws_bind {A B} (p : prog op resp A) (f : A -> prog op resp B) :
  never_throws p -> (forall a, never_throws (f a)) -> never_throws (bind p f).
Proof.
  intros Hp Hf. induction Hp as [a|o k _ IH]; simpl; [apply Hf|].
  constructor. exact IH.
Qed.

(** A handler that cannot throw makes the whole [try]/[catch] safe, whatever
    the protected block does. *)
Lemma never_throws_try_catch {A} (p : prog op resp A) (h : string -> prog op resp A) :
  (forall e, never_throws (h e)) -> never_throws (try_catch p h).
Proof.
  intros Hh. induction p as [a|e|o k IH]; simpl.
  - constructor.
  - apply Hh.
  - constructor. exact IH.
Qed.

Lemma never_throws_exec {A} w (p : prog op resp A) :
  never_throws p -> exists a, fst (exec w p) = Ok a.
Proof.
  induction 1 as [a|o k _ IH]; simpl; [eauto|].
  destruct (IH (w o)) as [a Ha]. exists a.
  destruct (exec w (k (w o))). exact Ha.
Qed.

Lemma all_ops_bind {A B} (P : op -> Prop) (p : prog op resp A) (f : A -> prog op resp B) :
  all_ops P p -> (forall a, all_ops P (f a)) -> all_ops P (bind p f).
Proof.
  intros Hp Hf. induction Hp as [a|e|o k Ho _ IH]; simpl.
  - apply Hf.
  - constructor.
  - constructor; assumption.
Qed.

Lemma all_ops_try_catch {A} (P : op -> Prop) (p : prog op resp A)
    (h : string -> prog op resp A) :
  all_ops P p -> (forall e, all_ops P (h e)) -> all_ops P (try_catch p h).
Proof.
  intros Hp Hh. induction Hp as [a|e|o k Ho _ IH]; simpl.
  - constructor.
  - apply Hh.
  - constructor; assumption.
Qed.

Lemma all_ops_finally {A} (P : op -> Prop) (p : prog op resp A) (q : prog op resp unit) :
  all_ops P p -> all_ops P q -> all_ops P (finally p q).
Proof.
  intros Hp Hq. induction Hp as [a|e|o k Ho _ IH]; simpl.
  - apply all_ops_bind; [exact Hq | intros; constructor].
  - apply all_ops_bind; [exact Hq | intros; constructor].
  - constructor; assumption.
Qed.

Lemma all_ops_settle {A} (P : op -> Prop) (r : result A) :
  all_ops P (settle (op := op) (resp := resp) r).
Proof. destruct r; constructor. Qed.

(** What holds of every operation of the tree holds along every run. *)
Lemma all_ops_exec {A} (P : op -> Prop) w (p : prog op resp A) :
  all_ops P p -> Forall P (snd (exec w p)).
Proof.
  induction 1 as [a|e|o k Ho _ IH]; simpl; try constructor.
  specialize (IH (w o)). destruct (exec w (k (w o))). simpl in *.
  constructor; assumption.
Qed.

End ProgFacts.
End ProgFacts.

(** ** Operations of the message pipeline *)

Module PipelineFacts.
Import Bridge ProgFacts.

Lemma all_ops_await (P : op -> Prop) (o : op) : P o -> all_ops P (call o).
Proof. intros H. constructor; [exact H | intros; constructor]. Qed.

Lemma exec_await (w : world op resp) (o : op) : exec w (call o) = (Ok (w o), [o]).
Proof. reflexivity. Qed.

(** One step through a program built from the combinators; side conditions
    on single operations are left to [tac]. *)
Ltac ops_step tac :=
  lazymatch goal with
  | |- all_ops _ (bind _ _) => apply all_ops_bind; [|intros]
  | |- all_ops _ (try_catch _ _) => apply all_ops_try_catch; [|intros]
  | |- all_ops _ (finally _ _) => apply all_ops_finally
  | |- all_ops ?Q (call ?o) => apply (all_ops_await Q o); tac
  | |- all_ops _ (settle _) => apply all_ops_settle
  | |- all_ops _ (Ret _) => constructor
  | |- all_ops _ (Throw _) => constructor
  | |- all_ops _ (match ?x with _ => _ end) => destruct x
  end.

Ltac ops tac := repeat ops_step tac.

Section Pipeline.
Variable P : op -> Prop.

(** [P] holds of everything but possibly [SendMessage] and [SetTimeout]. *)
Hypothesis P_other : forall o,
  match o with SendMessage _ _ | SetTimeout _ _ => True | _ => P o end.

Ltac other := idtac; lazymatch goal with |- P ?o => exact (P_other o) end.

Lemma insertLog_ops row : all_ops P (insertLog row).
Proof. unfold insertLog. ops other. Qed.

Lemma callN8n_ops url timeout secret payload : all_ops P (callN8n url timeout secret payload).
Proof. unfold callN8n. ops other. Qed.

Lemma loadRuntimeConfig_ops : all_ops P loadRuntimeConfig.
Proof. unfold loadRuntimeConfig. ops other. Qed.

Lemma getRuntimeConfig_ops cache : all_ops P (getRuntimeConfig cache).
Proof.
  unfold getRuntimeConfig.
  ops_step other; [ops other|].
  repeat first [apply loadRuntimeConfig_ops | ops_step other].
Qed.


(** The sends of [reply] go to [destination] and carry [finalText] of some
    reply text. *)
Lemma reply_ops cfg chatJid senderJid requestId resp status :
  (forall replyText,
     P (SendMessage (destination cfg resp chatJid senderJid) (finalText cfg replyText))) ->
  all_ops P (reply cfg chatJid senderJid requestId resp status).
Proof.
  intros Hsend. unfold reply, trimmed_replyText.
  repeat first [apply insertLog_ops | ops_step ltac:(first [other | apply Hsend])].
Qed.

Lemma process_message_ops norm newsletter url timeout secret cache m :
  (forall chatJid cfg resp replyText,
     remoteJid (key m) = Some chatJid ->
     P (SendMessage
          (destination cfg resp chatJid (sender_of m chatJid (ends_with chatJid "@g.us")))
          (finalText cfg replyText))) ->
  all_ops P (process_message norm newsletter url timeout secret cache m).
Proof.
  intros Hsend. unfold process_message.
  destruct (remoteJid (key m)) as [chatJid|]; [|constructor].
  specialize (fun cfg resp replyText => Hsend chatJid cfg resp replyText eq_refl).
  repeat first
    [ apply insertLog_ops | apply callN8n_ops | apply getRuntimeConfig_ops
    | apply reply_ops; intros; apply Hsend
    | ops_step other ].
Qed.

Lemma process_messages_ops norm newsletter url timeout secret ms :
  (forall m chatJid cfg resp replyText,
     In m ms -> remoteJid (key m) = Some chatJid ->
     P (SendMessage
          (destination cfg resp chatJid (sender_of m chatJid (ends_with chatJid "@g.us")))
          (finalText cfg replyText))) ->
  forall cache, all_ops P (process_messages norm newsletter url timeout secret cache ms).
Proof.
  induction ms as [|m rest IH]; intros Hsend cache; simpl; [constructor|].
  apply all_ops_bind.
  - apply process_message_ops. intros. eapply Hsend; [left; reflexivity | eassumption].
  - intros cache'. apply IH. intros. eapply Hsend; [right|]; eassumption.
Qed.

End Pipeline.
End PipelineFacts.

(** ** ConnectionSupervisor *)

Module SupervisorSpec.
Import Bridge ProgFacts PipelineFacts.

Lemma timers_app (t1 t2 : list op) : timers (t1 ++ t2)%list = (timers t1 ++ timers t2)%list.
Proof. unfold timers. apply flat_map_app. Qed.

Lemma timers_no_timer (t : list op) : Forall no_timer t -> timers t = [].
Proof.
  induction 1 as [|o t Ho _ IH]; [reflexivity|].
  destruct o; simpl in *; solve [exact IH | contradiction].
Qed.

(** Nothing in the message loop sets a timer. *)
Lemma process_messages_no_timer norm newsletter url timeout secret cache ms :
  all_ops no_timer (process_messages norm newsletter url timeout secret cache ms).
Proof.
  apply process_messages_ops.
  - intros o. destruct o; exact I.
  - intros. exact I.
Qed.

(** What the handler does after its [connection.update] branch sets no
    timer, whether or not saving the credentials throws. *)
Lemma after_connection_update_no_timer norm newsletter url timeout secret w cache events :
  timers (snd (exec w
    (let! _ := if creds_update events
               then let! saved := call SaveCreds in settle saved
               else Ret tt in
     match messages_upsert events with
     | None => Ret cache
     | Some upsert =>
         if negb (String.eqb (upsert_type upsert) "notify") then Ret cache
         else process_messages norm newsletter url timeout secret cache (messages upsert)
     end))) = [].
Proof.
  apply timers_no_timer, all_ops_exec.
  apply all_ops_bind.
  - destruct (creds_update events); [|constructor].
    apply all_ops_bind; [apply all_ops_await; exact I | intros; apply all_ops_settle].
  - intros _. destruct (messages_upsert events) as [upsert|]; [|constructor].
    destruct (negb _); [constructor | apply process_messages_no_timer].
Qed.

(** C4: when the handler receives a connection-closed event, the timers it
    sets are none if the status code of the disconnect is [loggedOut], and
    exactly one, running the restart after 1500 ms, for every other code and
    for a disconnect without a code; this holds for every behaviour of the
    outside world and whatever else the event carries. *)
Theorem close_schedules_one_restart (norm : string -> string) (newsletter : string -> bool)
    (loggedOut : Z) (url : string) (timeout : Z) (secret : string)
    (w : world op resp) (cache : RuntimeCache) (events : Events)
    (update : ConnectionUpdate) :
  connection_update events = Some update ->
  connection update = Some "close" ->
  let code :=
    match lastDisconnect update with
    | Some last => statusCode last
    | None => None
    end in
  let trace :=
    snd (exec w (on_events norm newsletter loggedOut url timeout secret cache events)) in
  (code = Some loggedOut -> timers trace = [])
  /\ (code <> Some loggedOut -> timers trace = [(Restart, 1500%Z)]).
Proof.
  intros Hupdate Hclose code trace.
  assert (E : timers trace =
              if bool_decide (code = Some loggedOut) then [] else [(Restart, 1500%Z)]).
  { subst trace. unfold on_events. rewrite Hupdate, exec_bind.
    pose proof (after_connection_update_no_timer norm newsletter url timeout secret
                  w cache events) as Hrest.
    unfold on_connection_update. rewrite Hclose. simpl String.eqb. cbv iota.
    fold code. destruct (bool_decide (code = Some loggedOut)); simpl negb; cbv iota.
    - simpl exec at 1. cbv iota beta.
      destruct (exec w _) as [r t'] in Hrest |- *. simpl in Hrest |- *. exact Hrest.
    - simpl exec at 1. cbv iota beta.
      destruct (exec w _) as [r t'] in Hrest |- *. simpl in Hrest |- *.
      rewrite Hrest. reflexivity. }
  rewrite E. split; intros H.
  - rewrite bool_decide_eq_true_2 by exact H. reflexivity.
  - rewrite bool_decide_eq_false_2 by exact H. reflexivity.
Qed.

(** C4 at a stream reset (code 428) and at a log-out (code 401). *)
Lemma close_schedules_one_restart_witness :
  let w := Samples.world_at 0 (Samples.settings_of "denylist" "disabled") Samples.rules in
  let handler := on_events (fun j => j) (fun _ => false) 401 "https://n8n.example/hook" 15000 "" in
  timers (snd (exec w (handler runtimeCache (Samples.close_event (Some 428%Z)))))
    = [(Restart, 1500%Z)]
  /\ timers (snd (exec w (handler runtimeCache (Samples.close_event (Some 401%Z))))) = [].
Proof.
  split.
  - apply (proj2 (close_schedules_one_restart (fun j => j) (fun _ => false) 401
                    "https://n8n.example/hook" 15000 ""
                    (Samples.world_at 0 (Samples.settings_of "denylist" "disabled") Samples.rules)
                    runtimeCache (Samples.close_event (Some 428%Z)) _ eq_refl eq_refl)).
    simpl. discriminate.
  - apply (proj1 (close_schedules_one_restart (fun j => j) (fun _ => false) 401
                    "https://n8n.example/hook" 15000 ""
                    (Samples.world_at 0 (Samples.settings_of "denylist" "disabled") Samples.rules)
                    runtimeCache (Samples.close_event (Some 401%Z)) _ eq_refl eq_refl)).
    reflexivity.
Defined.

Lemma pairing_requests_app (t1 t2 : list op) :
  pairing_requests (t1 ++ t2)%list = pairing_requests t1 + pairing_requests t2.
Proof. unfold pairing_requests. rewrite List.filter_app, length_app. reflexivity. Qed.

(** Every transient disconnect leads to one more pairing request, in a
    process configured with a pairing number whose session stays
    unregistered. *)
Lemma run_events_pairing_requests (n : nat) (cache : RuntimeCache) :
  pairing_requests
    (run_events (fun j => j) (fun _ => false) 401 "https://n8n.example/hook" 15000 ""
       "baileys_auth_info_bridge" "15551234567" (Samples.clock_world 0) cache
       (repeat Samples.transient n)) = n.
Proof.
  induction n as [|n IH]; [reflexivity|].
  cbn [repeat run_events].
  replace (exec (Samples.clock_world 0) (on_events _ _ _ _ _ _ cache Samples.transient))
    with (Ok cache, [Log warn "Connection closed; reconnecting"; SetTimeout Restart 1500])
    by reflexivity.
  cbv iota beta. rewrite !pairing_requests_app, IH. reflexivity.
Qed.

(** C5 fails on the code: [pairingRequested] is a local of [start], so every
    restart asks again.  With a pairing number configured and a session that
    stays unregistered, a process that sees [n] transient disconnects requests
    a pairing code [n + 1] times; one disconnect already gives two. *)
Theorem pairing_code_requested_on_every_restart (n : nat) :
  pairing_requests
    (lifetime (fun j => j) (fun _ => false) 401 "https://n8n.example/hook" 15000 ""
       "baileys_auth_info_bridge" "15551234567" (Samples.clock_world 0)
       (repeat Samples.transient n)) = S n.
Proof.
  unfold lifetime.
  replace (exec (Samples.clock_world 0) (start "baileys_auth_info_bridge" "15551234567"))
    with (Ok tt,
          [UseMultiFileAuthState "baileys_auth_info_bridge"; FetchLatestBaileysVersion;
           Log info "Using WhatsApp Web version"; MakeWASocket; CredsRegistered;
           Sleep 1500; RequestPairingCode "15551234567"; Log info "Pairing code ABCD-1234";
           EvProcess])
    by reflexivity.
  rewrite pairing_requests_app, run_events_pairing_requests. reflexivity.
Qed.

End SupervisorSpec.

(** ** ConfigCache *)

Module ConfigCacheSpec.
Import Bridge ProgFacts.

(** Every load starts with the settings query. *)
Lemma loadRuntimeConfig_queries (w : world op resp) :
  In SelectAppSettings (snd (exec w loadRuntimeConfig)).
Proof.
  unfold loadRuntimeConfig. simpl. destruct (exec w _). left. reflexivity.
Qed.

Lemma exec_getRuntimeConfig_hit (w : world op resp) (cache : RuntimeCache)
    (snapshot : RuntimeConfig) :
  cfg cache = Some snapshot -> (w DateNow - loadedAt cache < ttlMs cache)%Z ->
  exec w (getRuntimeConfig cache) = (Ok (snapshot, cache), [DateNow]).
Proof.
  intros Hc Hlt. unfold getRuntimeConfig. rewrite exec_bind.
  change (exec w (call DateNow)) with (Ok (w DateNow), [DateNow]). cbv iota beta.
  rewrite Hc. apply Z.ltb_lt in Hlt. rewrite Hlt. reflexivity.
Qed.

Lemma exec_getRuntimeConfig_miss (w : world op resp) (cache : RuntimeCache) :
  cfg cache = None \/ (ttlMs cache <= w DateNow - loadedAt cache)%Z ->
  exec w (getRuntimeConfig cache) =
  match exec w loadRuntimeConfig with
  | (Ok loaded, t) =>
      (Ok (loaded, {| cfg := Some loaded; loadedAt := w DateNow; ttlMs := ttlMs cache |}),
       DateNow :: t)
  | (Err e, t) => (Err e, DateNow :: t)
  end.
Proof.
  intros H. unfold getRuntimeConfig. rewrite exec_bind.
  change (exec w (call DateNow)) with (Ok (w DateNow), [DateNow]). cbv iota beta.
  assert (E : forall p : prog RuntimeConfig,
    (let '(r, t') :=
       exec w (let! loaded := p in
               Ret (loaded, {| cfg := Some loaded; loadedAt := w DateNow;
                               ttlMs := ttlMs cache |}))
     in (r, ([DateNow] ++ t')%list)) =
    match exec w p with
    | (Ok loaded, t) =>
        (Ok (loaded, {| cfg := Some loaded; loadedAt := w DateNow; ttlMs := ttlMs cache |}),
         DateNow :: t)
    | (Err e, t) => (Err e, DateNow :: t)
    end).
  { intros p. rewrite exec_bind. destruct (exec w p) as [[loaded|e] t]; simpl.
    - rewrite app_nil_r. reflexivity.
    - reflexivity. }
  destruct (cfg cache) as [snapshot|].
  - destruct H as [H|H]; [discriminate|]. apply Z.ltb_ge in H. rewrite H. apply E.
  - apply E.
Qed.

(** C6, as amended: the TTL window is anchored at the time the snapshot was
    loaded.  (1) A call made less than [ttlMs] after [loadedAt] returns the
    cached snapshot, performs no load and leaves the cache as it is.  (2) In
    particular, after a call that performed a load, a second call less than
    [ttlMs] later (on the clock) returns the same snapshot without a load.
    (3) A load is performed exactly when the cache is empty or at least
    [ttlMs] has passed since [loadedAt]; a successful load replaces the
    snapshot and stamps it with the current time, a failed one throws.
    (4) [ttlMs] is 4000 at start-up. *)
Theorem getRuntimeConfig_ttl (w1 w2 : world op resp) (cache : RuntimeCache) :
  let now1 := w1 DateNow in
  let now2 := w2 DateNow in
  (forall snapshot,
     cfg cache = Some snapshot -> (now1 - loadedAt cache < ttlMs cache)%Z ->
     exec w1 (getRuntimeConfig cache) = (Ok (snapshot, cache), [DateNow]))
  /\ (forall snapshot cache1 trace1,
        exec w1 (getRuntimeConfig cache) = (Ok (snapshot, cache1), trace1) ->
        In SelectAppSettings trace1 ->
        (now2 - now1 < ttlMs cache)%Z ->
        exec w2 (getRuntimeConfig cache1) = (Ok (snapshot, cache1), [DateNow]))
  /\ (In SelectAppSettings (snd (exec w1 (getRuntimeConfig cache))) <->
      cfg cache = None \/ (ttlMs cache <= now1 - loadedAt cache)%Z)
  /\ (cfg cache = None \/ (ttlMs cache <= now1 - loadedAt cache)%Z ->
      exec w1 (getRuntimeConfig cache) =
      match exec w1 loadRuntimeConfig with
      | (Ok loaded, t) =>
          (Ok (loaded, {| cfg := Some loaded; loadedAt := now1; ttlMs := ttlMs cache |}),
           DateNow :: t)
      | (Err e, t) => (Err e, DateNow :: t)
      end)
  /\ ttlMs runtimeCache = 4000%Z.
Proof.
  intros now1 now2.
  split; [intros; apply exec_getRuntimeConfig_hit; assumption|].
  assert (Hcases : (exists snapshot, cfg cache = Some snapshot
                      /\ (now1 - loadedAt cache < ttlMs cache)%Z)
                   \/ (cfg cache = None \/ (ttlMs cache <= now1 - loadedAt cache)%Z)).
  { destruct (cfg cache) as [snapshot|]; [|auto].
    destruct (Z.lt_ge_cases (now1 - loadedAt cache) (ttlMs cache)); eauto. }
  split; [|split; [|split; [apply exec_getRuntimeConfig_miss | reflexivity]]].
  - intros snapshot cache1 trace1 Hexec Hload Hlt.
    destruct Hcases as [(cached & Hc & Hfresh)|Hstale].
    + exfalso. rewrite (exec_getRuntimeConfig_hit w1 cache cached Hc Hfresh) in Hexec.
      injection Hexec as _ _ <-. destruct Hload as [H|[]]. discriminate.
    + rewrite (exec_getRuntimeConfig_miss w1 cache Hstale) in Hexec.
      destruct (exec w1 loadRuntimeConfig) as [[loaded|e] t]; [|discriminate].
      injection Hexec as <- <- _. apply exec_getRuntimeConfig_hit; [reflexivity | exact Hlt].
  - split.
    + intros Hin. destruct Hcases as [(cached & Hc & Hfresh)|Hstale]; [exfalso|exact Hstale].
      rewrite (exec_getRuntimeConfig_hit w1 cache cached Hc Hfresh) in Hin.
      destruct Hin as [H|[]]. discriminate.
    + intros Hstale. rewrite (exec_getRuntimeConfig_miss w1 cache Hstale).
      pose proof (loadRuntimeConfig_queries w1) as Hq.
      destruct (exec w1 loadRuntimeConfig) as [[loaded|e] t]; right; exact Hq.
Qed.

Import Samples (clock_world, snapshot, loaded_at).

(** C6 as stated fails: the window is not measured between calls.  The
    snapshot is loaded at 10000; a call at 13000 is served from the cache; the
    next call comes 2000 ms later, with no write in between, and because 5000
    ms have passed since the load it queries the datastore again and replaces
    the cache. *)
Lemma getRuntimeConfig_ttl_counterexample :
  exec (clock_world 10000) (getRuntimeConfig runtimeCache)
    = (Ok (snapshot, loaded_at 10000), [DateNow; SelectAppSettings; SelectEntityRules])
  /\ exec (clock_world 13000) (getRuntimeConfig (loaded_at 10000))
     = (Ok (snapshot, loaded_at 10000), [DateNow])
  /\ (15000 - 13000 < ttlMs (loaded_at 10000))%Z
  /\ exec (clock_world 15000) (getRuntimeConfig (loaded_at 10000))
     = (Ok (snapshot, loaded_at 15000), [DateNow; SelectAppSettings; SelectEntityRules])
  /\ loaded_at 15000 <> loaded_at 10000
  /\ ~ ((15000 - 13000 < ttlMs (loaded_at 10000))%Z ->
        exec (clock_world 15000) (getRuntimeConfig (loaded_at 10000))
        = (Ok (snapshot, loaded_at 10000), [DateNow])).
Proof.
  assert (E : exec (clock_world 15000) (getRuntimeConfig (loaded_at 10000))
              = (Ok (snapshot, loaded_at 15000),
                 [DateNow; SelectAppSettings; SelectEntityRules]))
    by (vm_compute; reflexivity).
  split; [vm_compute; reflexivity|]. split; [vm_compute; reflexivity|].
  split; [reflexivity|]. split; [exact E|]. split.
  - intros H. apply (f_equal loadedAt) in H. discriminate.
  - intros H. rewrite E in H. specialize (H eq_refl).
    apply (f_equal snd) in H. discriminate.
Qed.

(** The amended C6 on the same scenario: the call at 10000 loaded, so a call
    at 13000 gets that snapshot with no query. *)
Lemma getRuntimeConfig_ttl_witness :
  exec (clock_world 13000) (getRuntimeConfig (loaded_at 10000))
  = (Ok (snapshot, loaded_at 10000), [DateNow]).
Proof.
  apply (proj1 (proj2 (getRuntimeConfig_ttl (clock_world 10000) (clock_world 13000) runtimeCache))
           snapshot (loaded_at 10000) [DateNow; SelectAppSettings; SelectEntityRules]).
  - vm_compute. reflexivity.
  - right. left. reflexivity.
  - reflexivity.
Defined.

End ConfigCacheSpec.

(** ** WebhookDispatcher *)

Module DispatcherSpec.
Import Bridge ProgFacts PipelineFacts.

Lemma string_append_cons (x : ascii) (a b : string) :
  String x a ++ b = String x (a ++ b).
Proof. reflexivity. Qed.

Lemma string_append_assoc (a b c : string) : (a ++ b) ++ c = a ++ (b ++ c).
Proof.
  induction a as [|x a IH]; [reflexivity|].
  rewrite !string_append_cons, IH. reflexivity.
Qed.

Lemma string_length_append (a b : string) :
  String.length (a ++ b) = String.length a + String.length b.
Proof.
  induction a as [|x a IH]; [reflexivity|].
  rewrite string_append_cons. simpl. rewrite IH. reflexivity.
Qed.

Lemma slice0_append (n : nat) (a b : string) :
  String.length a <= n ->
  JS.slice0 n (a ++ b) = a ++ JS.slice0 (n - String.length a) b.
Proof.
  unfold JS.slice0. revert n. induction a as [|c a IH]; intros n Hlen.
  - change ("" ++ b) with b. simpl. rewrite Nat.sub_0_r. reflexivity.
  - rewrite !string_append_cons. simpl in Hlen. destruct n as [|n]; [lia|].
    simpl. rewrite IH by lia. reflexivity.
Qed.

(** A status code of at most three digits prints in at most three
    characters. *)
Lemma show_N_length (n : N) : (n < 1000)%N -> String.length (JS.show_N n) <= 3.
Proof.
  intros Hn.
  assert (Hall : forallb (fun k => Nat.leb (String.length (JS.show_N (N.of_nat k))) 3)
                   (seq 0 1000) = true) by (vm_compute; reflexivity).
  rewrite forallb_forall in Hall.
  specialize (Hall (N.to_nat n)). rewrite N2Nat.id in Hall.
  apply Nat.leb_le, Hall, in_seq. lia.
Qed.

(** C7: a dispatch that got a 2xx status and a body that [res.json()]
    rejects returns normally, with the empty object (which has no [replyText]
    and no [skipReply]) and the status.  A dispatch that got any other status
    throws; the message is [n8n responded <status>: <body>] cut at 800
    characters, so (a status having at most three digits) it is that heading
    with the status, followed by the first [800 - heading length] characters
    of the body, or by nothing when the body cannot be read. *)
Theorem callN8n_outcome (url : string) (timeout : Z) (secret : string)
    (payload : N8nWebhookPayload) (w : world op resp) (res : Response) :
  w (Fetch url (headers secret) payload) = Ok res ->
  let outcome := fst (exec w (callN8n url timeout secret payload)) in
  let body := match res_text res with Ok t => t | Err _ => "" end in
  let heading := "n8n responded " ++ JS.show_N (status res) ++ ": " in
  ((200 <= status res <= 299)%N ->
   (exists e, res_json res = Err e) ->
   outcome = Ok (JS.Obj [], status res)
   /\ JS.get (JS.Obj []) "replyText" = None /\ JS.get (JS.Obj []) "skipReply" = None)
  /\ (~ (200 <= status res <= 299)%N ->
      outcome = Err (JS.slice0 800 (heading ++ body))
      /\ ((status res < 1000)%N ->
          outcome = Err (heading ++ JS.slice0 (800 - String.length heading) body))).
Proof.
  intros Hfetch outcome body heading.
  assert (E : outcome =
              if ok res then
                let json := match res_json res with Ok j => j | Err _ => JS.Obj [] end in
                Ok (if JS.truthy json then json else JS.Obj [], status res)
              else Err (JS.slice0 800 (heading ++ body))).
  { subst outcome heading body. unfold callN8n. rewrite exec_bind.
    rewrite exec_await. cbv iota beta. simpl finally. simpl exec.
    rewrite Hfetch. simpl.
    destruct (ok res); simpl; [reflexivity|].
    rewrite !string_append_assoc. reflexivity. }
  assert (Hok : ok res = true <-> (200 <= status res <= 299)%N).
  { unfold ok. rewrite andb_true_iff, !N.leb_le. reflexivity. }
  split.
  - intros Hrange [e He]. apply Hok in Hrange. rewrite E, Hrange, He. simpl. auto.
  - intros Hrange. destruct (ok res) eqn:Hk; [exfalso; apply Hrange, Hok; reflexivity|].
    split; [exact E|]. intros Hstatus. rewrite E. f_equal.
    apply slice0_append. subst heading.
    pose proof (show_N_length (status res) Hstatus) as Hlen.
    rewrite !string_length_append. simpl. lia.
Qed.

(** C7 at a 200 whose body is not JSON and at a 500 with a short body. *)
Lemma callN8n_outcome_witness :
  let w := Samples.world_at 0 (Samples.settings_of "denylist" "disabled") Samples.rules in
  let malformed := {| status := 200; res_text := Ok "<html>"; res_json := Err "SyntaxError" |} in
  let failed := {| status := 500; res_text := Ok "Internal Server Error";
                   res_json := Err "SyntaxError" |} in
  fst (exec (Samples.with_fetch (Ok malformed) w)
         (callN8n "https://n8n.example/hook" 15000 "" Samples.payload))
    = Ok (JS.Obj [], 200%N)
  /\ fst (exec (Samples.with_fetch (Ok failed) w)
            (callN8n "https://n8n.example/hook" 15000 "" Samples.payload))
     = Err "n8n responded 500: Internal Server Error".
Proof.
  intros w malformed failed. split.
  - refine (proj1 (proj1 (callN8n_outcome "https://n8n.example/hook" 15000 ""
                            Samples.payload (Samples.with_fetch (Ok malformed) w)
                            malformed eq_refl) _ _)).
    + simpl. lia.
    + eexists. reflexivity.
  - refine (proj2 (proj2 (callN8n_outcome "https://n8n.example/hook" 15000 ""
                            Samples.payload (Samples.with_fetch (Ok failed) w)
                            failed eq_refl) _) _).
    + simpl. lia.
    + simpl. lia.
Defined.

End DispatcherSpec.

(** ** AuditLogger *)

Module AuditSpec.
Import Bridge ProgFacts PipelineFacts.

Lemma never_throws_await (o : op) : never_throws (call o).
Proof. constructor. intros. constructor. Qed.

Ltac safe_step :=
  lazymatch goal with
  | |- never_throws (call ?o) => apply (never_throws_await o)
  | |- never_throws (try_catch _ _) => apply never_throws_try_catch; intros
  | |- never_throws (bind _ _) => apply never_throws_bind; [|intros]
  | |- never_throws (Ret _) => constructor
  | |- never_throws (match ?x with _ => _ end) => destruct x
  end.

Lemma insertLog_safe (row : MessageLogInsert) : never_throws (insertLog row).
Proof. unfold insertLog. repeat safe_step. Qed.

(** The message-processing step: every place where it could throw is inside
    a [try] or behind a [.catch] whose handler only logs. *)
Lemma process_message_safe norm newsletter url timeout secret cache m :
  never_throws (process_message norm newsletter url timeout secret cache m).
Proof.
  unfold process_message. repeat first [apply insertLog_safe | safe_step].
Qed.

(** C8: [insertLog] returns normally for every row and every answer of the
    datastore: a reported error becomes one warning and nothing else, a
    success leaves no trace but the insert.  The message-processing step
    that calls it never throws either, whatever the datastore, the webhook
    and the transport do. *)
Theorem insertLog_never_raises (row : MessageLogInsert) :
  never_throws (insertLog row)
  /\ (forall w : world op resp,
        exec w (insertLog row) =
        (Ok tt,
         InsertMessageLog row ::
           match error (w (InsertMessageLog row)) with
           | Some message => [Log warn ("Failed to insert message log: " ++ message)]
           | None => []
           end))
  /\ (forall norm newsletter url timeout secret cache m,
        never_throws (process_message norm newsletter url timeout secret cache m)).
Proof.
  split; [apply insertLog_safe|]. split; [|intros; apply process_message_safe].
  intros w. unfold insertLog. rewrite exec_bind, exec_await.
  destruct (error (w (InsertMessageLog row))) as [message|]; simpl; [|reflexivity].
  destruct (w (Log warn _)). reflexivity.
Qed.

(** C8 against a datastore that refuses the row: one warning, and the call
    returns. *)
Lemma insertLog_never_raises_witness :
  exec (Samples.with_failing_insert (Samples.clock_world 0)) (insertLog Samples.inbound_row)
  = (Ok tt,
     [InsertMessageLog Samples.inbound_row;
      Log warn "Failed to insert message log: connection refused"]).
Proof.
  exact (proj1 (proj2 (insertLog_never_raises Samples.inbound_row))
           (Samples.with_failing_insert (Samples.clock_world 0))).
Defined.

End AuditSpec.

(** ** Reply destination and text *)

Module ReplySpec.
Import Bridge ProgFacts PipelineFacts.

Lemma trimmed_replyText_cases (resp : JS.value) :
  trimmed_replyText resp = Ret ""
  \/ (exists s, JS.get resp "replyText" = Some (JS.Str s)
                /\ trimmed_replyText resp = Ret (JS.trim s))
  \/ (exists e, trimmed_replyText resp = Throw e).
Proof.
  unfold trimmed_replyText. destruct (JS.get resp "replyText") as [v|]; [|auto].
  destruct (JS.truthy v); [|auto].
  destruct v; eauto.
Qed.

(** The sends of [reply] carry the prefix followed by the trimmed reply
    text of the webhook's answer. *)
Lemma reply_text cfg chatJid senderJid requestId resp status :
  all_ops
    (fun o =>
       match o with
       | SendMessage _ text =>
           exists s, JS.get resp "replyText" = Some (JS.Str s)
                     /\ text = reply_prefix (settings cfg) ++ JS.trim s
       | _ => True
       end)
    (reply cfg chatJid senderJid requestId resp status).
Proof.
  set (P := fun o : op => _).
  assert (Hprefix : forall t, finalText cfg t = reply_prefix (settings cfg) ++ t).
  { intros t. unfold finalText, JS.or_str, JS.truthy_str.
    destruct (String.eqb_spec (reply_prefix (settings cfg)) "") as [->|]; reflexivity. }
  assert (Hlog : forall row, all_ops P (insertLog row)).
  { intros row. apply insertLog_ops. intros o. destruct o; exact I. }
  unfold reply. destruct (JS.truthy_field _); [apply Hlog|].
  destruct (trimmed_replyText_cases resp) as [E|[(s & Hget & E)|(e & E)]]; rewrite E.
  - apply Hlog.
  - rewrite bind_Ret. destruct (negb _); [apply Hlog|].
    apply all_ops_bind.
    + apply all_ops_await. exists s. rewrite Hprefix. auto.
    + intros sent. apply all_ops_bind; [apply all_ops_settle|]. intros _.
      apply all_ops_bind; [apply Hlog|]. intros _.
      apply (all_ops_await P (Log info "Replied on WhatsApp")). exact I.
  - constructor.
Qed.

(** C10: a group message without a participant has no sender, and then
    every message the pipeline sends for it goes to the chat it came from,
    whatever [sendTo] the webhook or the settings ask for.  Every reply sent
    carries [reply_prefix] followed by the trimmed [replyText].  And a reply
    is sent: with no sender, a string [replyText] that is not blank, no
    [skipReply] and [sendTo] resolved to 'directToSender', the first thing
    [reply] does is send that text to the chat. *)
Theorem reply_destination_and_text :
  (forall norm newsletter url timeout secret cache m chatJid,
     remoteJid (key m) = Some chatJid ->
     ends_with chatJid "@g.us" = true ->
     JS.or_undefined (participant (key m)) = None ->
     all_ops
       (fun o => match o with SendMessage dest _ => dest = chatJid | _ => True end)
       (process_message norm newsletter url timeout secret cache m))
  /\ (forall cfg chatJid senderJid requestId resp status,
        all_ops
          (fun o =>
             match o with
             | SendMessage _ text =>
                 exists s, JS.get resp "replyText" = Some (JS.Str s)
                           /\ text = reply_prefix (settings cfg) ++ JS.trim s
             | _ => True
             end)
          (reply cfg chatJid senderJid requestId resp status))
  /\ (forall cfg chatJid requestId resp status s,
        JS.truthy_field (JS.get resp "skipReply") = false ->
        JS.get resp "replyText" = Some (JS.Str s) ->
        JS.trim s <> "" ->
        sendTo_is_directToSender cfg resp = true ->
        exists k,
          reply cfg chatJid None requestId resp status
          = Call (SendMessage chatJid (reply_prefix (settings cfg) ++ JS.trim s)) k).
Proof.
  split; [|split].
  - intros norm newsletter url timeout secret cache m chatJid Hjid Hgroup Hsender.
    apply process_message_ops.
    + intros o. destruct o; exact I.
    + intros chatJid' cfg resp replyText Hjid'.
      assert (chatJid' = chatJid) as -> by congruence.
      unfold sender_of. rewrite Hgroup, Hsender. reflexivity.
  - apply reply_text.
  - intros cfg chatJid requestId resp status s Hskip Hget Hne Hdirect.
    assert (Htrim : JS.truthy_str (JS.trim s) = true).
    { unfold JS.truthy_str. destruct (String.eqb_spec (JS.trim s) ""); [contradiction|].
      reflexivity. }
    assert (Hs : JS.truthy (JS.Str s) = true).
    { simpl. unfold JS.truthy_str. destruct (String.eqb_spec s "") as [->|]; [|reflexivity].
      exfalso. apply Hne. reflexivity. }
    unfold reply, trimmed_replyText. rewrite Hskip, Hget, Hs, bind_Ret.
    rewrite Htrim. simpl negb. cbv iota.
    unfold finalText, JS.or_str, JS.truthy_str, destination.
    destruct (String.eqb_spec (reply_prefix (settings cfg)) "") as [->|]; simpl;
      eexists; reflexivity.
Qed.

(** C10 on a group message without a participant, answered by the webhook
    with a padded reply and [sendTo: 'directToSender']: the reply goes to the
    group, prefixed and trimmed. *)
Lemma reply_destination_and_text_witness :
  let answer := JS.Obj [("replyText", JS.Str "  hi there ");
                        ("sendTo", JS.Str "directToSender")] in
  let w := Samples.with_fetch
             (Ok {| status := 200; res_text := Ok ""; res_json := Ok answer |})
             (Samples.world_at 0 (Samples.settings_of "denylist" "enabled") []) in
  let step := process_message (fun j => j) (fun _ => false) "https://n8n.example/hook"
                15000 "" runtimeCache Samples.group_message in
  Forall (fun o => match o with SendMessage dest _ => dest = Samples.group_jid | _ => True end)
    (snd (exec w step))
  /\ In (SendMessage Samples.group_jid "[bot] hi there") (snd (exec w step))
  /\ exists k,
       reply (Samples.config "denylist" "enabled" "default" "default") Samples.group_jid
         None "3f2c8a4e-0000-4000-8000-000000000001" answer 200
       = Call (SendMessage Samples.group_jid "[bot] hi there") k.
Proof.
  intros answer w step. split; [|split].
  - apply all_ops_exec.
    apply (proj1 reply_destination_and_text (fun j => j) (fun _ => false)
             "https://n8n.example/hook" 15000%Z "" runtimeCache Samples.group_message
             Samples.group_jid); reflexivity.
  - vm_compute. do 12 right. left. reflexivity.
  - apply (proj2 (proj2 reply_destination_and_text)
             (Samples.config "denylist" "enabled" "default" "default") Samples.group_jid
             "3f2c8a4e-0000-4000-8000-000000000001" answer 200%N "  hi there ").
    + reflexivity.
    + reflexivity.
    + vm_compute. discriminate.
    + reflexivity.
Defined.

End ReplySpec.

(** ** CredentialStore: [keys.get] *)

Module KeyStoreSpec.
Import SupabaseAuth ProgFacts.
#[local] Set Warnings "-clear-no-such-hyp".

Section Fill.
Variables jsonDecode fromObject : JS.value -> JS.value.
Variable set_inherited : JS.value -> string -> JS.value -> Out -> result Out.
Variable type : string.
Variable rows : list KeyRow.

(** On an object whose prototype is still [Object.prototype], every key
    other than [__proto__] is defined or overwritten. *)
Lemma assign_plain (out : Out) (id : string) (value : JS.value) :
  prototype out = ObjectPrototype -> id <> "__proto__" ->
  assign set_inherited out id value = Ok (define_own out id value).
Proof.
  intros Hp Hid. unfold assign. rewrite Hp.
  destruct (own out !! id); [reflexivity|].
  destruct (String.eqb_spec id "__proto__"); [contradiction | reflexivity].
Qed.


Lemma fill_plain (ids : list string) (out : Out) :
  "__proto__" ∉ ids -> prototype out = ObjectPrototype ->
  exists filled,
    fill jsonDecode fromObject set_inherited type rows ids out = Ok filled
    /\ prototype filled = ObjectPrototype
    /\ forall id,
         own filled !! id =
         if decide (id ∈ ids) then Some (key_value jsonDecode fromObject type rows id)
         else own out !! id.
Proof.
  revert out. induction ids as [|i ids IH]; intros out Hnone Hp; cbn [fill].
  - exists out. split; [reflexivity|]. split; [exact Hp|].
    intros id. rewrite decide_False by (intros H; inversion H). reflexivity.
  - apply not_elem_of_cons in Hnone as [Hi Hnone].
    rewrite assign_plain by (auto; congruence).
    destruct (IH (define_own out i (key_value jsonDecode fromObject type rows i)) Hnone Hp)
      as (filled & Hfill & Hproto & Hlookup).
    exists filled. split; [exact Hfill|]. split; [exact Hproto|].
    intros id. rewrite Hlookup. cbn [define_own own].
    destruct (decide (id ∈ ids)) as [Hin|Hnin].
    + rewrite decide_True by (right; exact Hin). reflexivity.
    + destruct (decide (i = id)) as [->|Hne].
      * rewrite decide_True by left. apply lookup_insert_eq.
      * rewrite decide_False by (intros H; inversion H; subst; contradiction).
        apply lookup_insert_ne. exact Hne.
Qed.


End Fill.

Lemma dom_of_lookups (ids : list string) (filled : gmap string JS.value)
    (value_of : string -> JS.value) :
  (forall id, filled !! id = if decide (id ∈ ids) then Some (value_of id) else None) ->
  dom filled = list_to_set ids.
Proof.
  intros Hlookup. apply set_eq. intros id.
  rewrite elem_of_dom, elem_of_list_to_set, Hlookup.
  destruct (decide (id ∈ ids)) as [Hin|Hnin]; split; intros H.
  - exact Hin.
  - eexists. reflexivity.
  - destruct H as [v Hv]. discriminate Hv.
  - contradiction.
Qed.

Lemma exec_keys_get (jsonDecode fromObject : JS.value -> JS.value)
    (set_inherited : JS.value -> string -> JS.value -> Out -> result Out)
    (instanceId type : string) (ids : list string) (w : world op resp) :
  exec w (keys_get jsonDecode fromObject set_inherited instanceId type ids) =
  match ids with
  | [] => (Ok {| own := ∅; prototype := ObjectPrototype |}, [])
  | _ =>
      match Bridge.error (w (SelectKeys instanceId type ids)) with
      | Some message =>
          (Err ("Failed to load wa_auth_keys: " ++ message),
           [SelectKeys instanceId type ids])
      | None =>
          (fill jsonDecode fromObject set_inherited type
             (default [] (Bridge.data (w (SelectKeys instanceId type ids)))) ids
             {| own := ∅; prototype := ObjectPrototype |},
           [SelectKeys instanceId type ids])
      end
  end.
Proof.
  unfold keys_get. destruct ids as [|i ids]; [reflexivity|].
  cbn [length Nat.eqb bind call Prog.call exec].
  destruct (Bridge.error (w (SelectKeys instanceId type (i :: ids)))); [reflexivity|].
  destruct (fill _ _ _ _ _ _ _); reflexivity.
Qed.




End KeyStoreSpec.

(** ** Facts about runs *)

Module RunsFacts.
Section RunsFacts.
Context {op : Type} {resp : op -> Type}.

Lemma runs_mono {A} (p : prog op resp A) (Q Q' : list (event op resp) -> result A -> Prop) :
  (forall t r, Q t r -> Q' t r) -> runs p Q -> runs p Q'.
Proof.
  revert Q Q'. induction p as [a|e|o k IH]; intros Q Q' HQ; simpl.
  - apply HQ.
  - apply HQ.
  - intros H x. apply (IH x (fun t r => Q (existT o x :: t) r)); [|apply H].
    intros t r. apply HQ.
Qed.

Lemma runs_bind {A B} (p : prog op resp A) (f : A -> prog op resp B)
    (Q : list (event op resp) -> result B -> Prop) :
  runs p (fun t r =>
            match r with
            | Ok a => runs (f a) (fun t' r' => Q (t ++ t')%list r')
            | Err e => Q t (Err e)
            end) ->
  runs (bind p f) Q.
Proof.
  revert Q. induction p as [a|e|o k IH]; intros Q; simpl.
  - intros H. exact H.
  - intros H. exact H.
  - intros H x. apply IH. apply (H x).
Qed.

Lemma runs_conj {A} (p : prog op resp A)
    (Q1 Q2 : list (event op resp) -> result A -> Prop) :
  runs p Q1 -> runs p Q2 -> runs p (fun t r => Q1 t r /\ Q2 t r).
Proof.
  revert Q1 Q2. induction p as [a|e|o k IH]; intros Q1 Q2; simpl; auto.
Qed.

(** What holds of every run holds of the run against any oracle. *)
Lemma runs_run {A} (p : prog op resp A) (Q : list (event op resp) -> result A -> Prop)
    (w : world op resp) :
  runs p Q -> Q (snd (run w p)) (fst (run w p)).
Proof.
  revert Q. induction p as [a|e|o k IH]; intros Q; simpl; try (intros H; exact H).
  intros H. specialize (IH (w o) _ (H (w o))).
  destruct (run w (k (w o))) as [r t]. exact IH.
Qed.

(** [run] is [exec] with the answers kept. *)
Lemma run_exec {A} (p : prog op resp A) (w : world op resp) :
  exec w p = (fst (run w p), map (@projT1 op resp) (snd (run w p))).
Proof.
  induction p as [a|e|o k IH]; simpl; try reflexivity.
  rewrite IH. destruct (run w (k (w o))) as [r t]. reflexivity.
Qed.

End RunsFacts.
End RunsFacts.

(** ** The message pipeline, run by run *)

Module PipelineSpec.
Import Bridge BridgeRun RunsFacts.

Ltac head_destruct p :=
  lazymatch p with
  | bind ?q _ => head_destruct q
  | try_catch ?q _ => head_destruct q
  | finally ?q _ => head_destruct q
  | settle ?r => destruct r eqn:?
  | match ?x with _ => _ end => destruct x eqn:?
  end.

(** Walks a program built from the combinators down to the leaves of its
    tree, one case per answer of the outside world; the statement about the
    runs is kept folded on the way. *)
Ltac walk_steps :=
  repeat first
    [ progress cbn [runs bind try_catch finally call Prog.call settle insertLog callN8n
                    getRuntimeConfig loadRuntimeConfig reply trimmed_replyText]
    | lazymatch goal with
      | |- forall _ : _, _ => let x := fresh "x" in intro x; try (cbv [resp] in x)
      end
    | progress unfold reply, trimmed_replyText, insertLog, callN8n, getRuntimeConfig,
        loadRuntimeConfig
    | lazymatch goal with |- runs ?p _ => head_destruct p end ].

Ltac walk :=
  lazymatch goal with
  | |- runs _ ?Q => let post := fresh "post" in set (post := Q); walk_steps; subst post; cbv beta
  end.

Ltac observe :=
  cbv [rows inbound_rows outbound_rows sends logs fetch_answers send_answers
       settings_answers rules_answers registered_answers pairing_answers save_answers
       user_answers ops_of map flat_map app List.filter length projT1
       direction outbound_log automated].

Ltac use_flags :=
  repeat match goal with
    | H : negb _ = true |- _ => apply negb_true_iff in H
    | H : negb _ = false |- _ => apply negb_false_iff in H
    end;
  repeat match goal with
    | H : ?b = true |- context [?b] => rewrite H
    | H : ?b = false |- context [?b] => rewrite H
    end.

Ltac finish := repeat split; eauto; try lia; try congruence.

Ltac flags :=
  repeat match goal with
    | H : negb _ = true |- _ => apply negb_true_iff in H
    | H : negb _ = false |- _ => apply negb_false_iff in H
    end.

(** Equations between observed lists and answers, taken apart. *)
Ltac leaf :=
  repeat match goal with
    | |- forall _, _ => intro
    | H : _ :: _ = [] |- _ => discriminate H
    | H : [] = _ :: _ |- _ => discriminate H
    | H : [_] = [_] |- _ => injection H as H
    | H : _ :: _ :: _ = [_] |- _ => discriminate H
    | H : Ok _ = Ok _ |- _ => injection H as H
    | H : Err _ = Err _ |- _ => injection H as H
    | H : (_, _) = (_, _) |- _ => injection H as ? ?
    | H : Ok _ = Err _ |- _ => discriminate H
    | H : Err _ = Ok _ |- _ => discriminate H
    end; subst.

(** The counts of one message.  On every run the step returns normally,
    calls the webhook at most once, sends at most one reply and writes at
    most one inbound row; it writes exactly one outbound row when it called
    the webhook and none otherwise; it calls the webhook exactly when it
    logged an inbound row marked automated; and it sends only when it called
    the webhook. *)
Lemma process_message_counts norm newsletter url timeout secret cache m :
  runs (process_message norm newsletter url timeout secret cache m)
    (fun t r =>
       (exists c, r = Ok c)
       /\ length (fetch_answers t) <= 1
       /\ length (inbound_rows t) <= 1
       /\ length (outbound_rows t) = length (fetch_answers t)
       /\ length (List.filter automated (inbound_rows t)) = length (fetch_answers t)
       /\ length (sends t) <= length (fetch_answers t)).
Proof.
  unfold process_message. walk.
  all: observe; try solve [finish]; use_flags; cbn; finish.
Qed.

(** The step never saves credentials. *)
Lemma process_message_no_save norm newsletter url timeout secret cache m :
  runs (process_message norm newsletter url timeout secret cache m)
    (fun t _ => save_answers t = []).
Proof. unfold process_message. walk. all: reflexivity. Qed.

(** X2: the inbound audit row.  Whatever the run, an inbound row is the row
    of this message: its chat is the message's chat, its text the extracted
    text (which is then not empty), its message id and sender those of the
    key, and it carries no webhook fields.  A message without extractable
    text writes no row at all, calls no webhook and sends nothing. *)
Theorem process_message_inbound_row norm newsletter url timeout secret cache m :
  runs (process_message norm newsletter url timeout secret cache m)
    (fun t r =>
       (forall row, In row (inbound_rows t) ->
          remoteJid (key m) = Some (chat_jid row)
          /\ log_text row = extractText (message m)
          /\ JS.truthy_opt (log_text row) = true
          /\ message_id row = JS.or_undefined (id (key m))
          /\ sender_jid row
             = JS.or_undefined (sender_of m (chat_jid row) (ends_with (chat_jid row) "@g.us"))
          /\ n8n_request_id row = None /\ n8n_status row = None /\ n8n_error row = None)
       /\ (JS.truthy_opt (extractText (message m)) = false ->
           rows t = [] /\ fetch_answers t = [] /\ sends t = [])).
Proof.
  unfold process_message. walk.
  all: observe; split;
    [ intros row Hin; cbn in Hin; repeat destruct Hin as [<-|Hin]; try contradiction;
      cbn; finish
    | intros Hno; try congruence; finish ].
Qed.

(** X3: failures inside the dispatch.  When the webhook call is rejected
    (network failure, timeout), when it answers a status outside 200-299, and
    when sending the reply is rejected, the run ends with exactly one outbound
    row: for the original chat, without text and without status - also when
    the webhook did answer with a status - and with the error message cut at
    900 characters; the failure is logged, no success is logged, and in the
    first two cases nothing is sent. *)
Theorem process_message_failure_row norm newsletter url timeout secret cache m :
  runs (process_message norm newsletter url timeout secret cache m)
    (fun t r =>
       let failed (e : string) :=
         exists row, outbound_rows t = [row]
           /\ remoteJid (key m) = Some (chat_jid row)
           /\ log_text row = None /\ n8n_status row = None
           /\ n8n_error row = Some (JS.slice0 900 e)
           /\ In (error_level, "Failed to process message") (logs t)
           /\ ~ In (info, "Replied on WhatsApp") (logs t) in
       (forall e, fetch_answers t = [Err e] -> sends t = [] /\ failed e)
       /\ (forall res, fetch_answers t = [Ok res] -> ok res = false ->
           sends t = []
           /\ failed (JS.slice0 800
                        ("n8n responded " ++ JS.show_N (status res) ++ ": "
                         ++ match res_text res with Ok body => body | Err _ => "" end)))
       /\ (forall e, send_answers t = [Err e] -> failed e)).
Proof.
  unfold process_message. walk.
  all: observe; cbv zeta; repeat split; intros; leaf.
  all: try solve [exfalso; flags; congruence].
  all: try (eexists; repeat split; try reflexivity).
  all: cbn [In]; try solve [intuition (try discriminate; try congruence)].
Qed.

(** X4: the outbound row of a skip and of a reply.  When the webhook answers
    2xx with a truthy [skipReply], nothing is sent and the one outbound row
    carries the status and the marker 'skipReply'.  When a reply was sent and
    the send succeeded, the one outbound row records where it went and the
    text that was sent, with the webhook's status and no error, and the
    success is logged. *)
Theorem process_message_reply_row norm newsletter url timeout secret cache m :
  runs (process_message norm newsletter url timeout secret cache m)
    (fun t r =>
       (forall res,
          fetch_answers t = [Ok res] -> ok res = true ->
          (let json := match res_json res with Ok j => j | Err _ => JS.Obj [] end in
           JS.truthy_field
             (JS.get (if JS.truthy json then json else JS.Obj []) "skipReply") = true) ->
          sends t = []
          /\ exists row, outbound_rows t = [row]
               /\ remoteJid (key m) = Some (chat_jid row)
               /\ log_text row = None
               /\ n8n_status row = Some (status res)
               /\ n8n_error row = Some "skipReply")
       /\ (forall dest text,
             sends t = [(dest, text)] -> send_answers t = [Ok tt] ->
             exists row res,
               fetch_answers t = [Ok res] /\ ok res = true
               /\ outbound_rows t = [row]
               /\ chat_jid row = dest
               /\ log_text row = Some text
               /\ n8n_status row = Some (status res)
               /\ n8n_error row = None
               /\ In (info, "Replied on WhatsApp") (logs t))).
Proof.
  unfold process_message. walk.
  all: observe; cbv zeta; repeat split; intros; leaf.
  all: try solve [exfalso; flags; congruence].
  all: try (eexists; repeat split; try reflexivity).
  all: try (eexists; repeat split; try reflexivity).
  all: flags; cbn [In]; try solve [intuition (try discriminate; try congruence)].
Qed.

(** X5: a failed configuration load.  When the settings query of the step
    reports an error or no row, the message is dropped: the step returns the
    cache it was given, writes no audit row, calls no webhook, sends nothing,
    and logs the failure. *)
Theorem process_message_config_failure norm newsletter url timeout secret cache m :
  runs (process_message norm newsletter url timeout secret cache m)
    (fun t r =>
       forall answer,
         In answer (settings_answers t) ->
         error answer <> None \/ data answer = None ->
         r = Ok cache
         /\ rows t = [] /\ fetch_answers t = [] /\ sends t = []
         /\ In (error_level, "Failed to load runtime config") (logs t)).
Proof.
  unfold process_message. walk.
  all: observe; cbv zeta; intros answer Hin Hbad; cbn [In] in Hin.
  all: repeat destruct Hin as [<-|Hin]; try contradiction.
  all: try solve [exfalso; destruct Hbad; congruence].
  all: repeat split; cbn [In]; auto.
Qed.

(** X6: the decision that is logged and acted on.  The snapshot in the cache
    the step returns is the one it decided with, and the own id it decided
    with is the one [sock.user?.id] read, once: the [automated] flag of the
    inbound row is [shouldAutomate] of that snapshot, the row's chat, the
    message and that id; a webhook call is made only when that decision is
    true; and when the snapshot says [ignore_from_me], a message of the own
    account leaves no row, no webhook call and no reply. *)
Theorem process_message_decision norm newsletter url timeout secret cache m :
  runs (process_message norm newsletter url timeout secret cache m)
    (fun t r =>
       forall c snapshot,
         r = Ok c -> cfg c = Some snapshot ->
         (ignore_from_me (settings snapshot) = true -> fromMe (key m) = Some true ->
          rows t = [] /\ fetch_answers t = [] /\ sends t = [])
         /\ (forall row, In row (inbound_rows t) ->
             exists myId,
               user_answers t = [myId]
               /\ automated row
                  = shouldAutomate norm snapshot (chat_jid row)
                      (ends_with (chat_jid row) "@g.us") (message m) myId)
         /\ (fetch_answers t <> [] ->
             exists chatJid myId,
               remoteJid (key m) = Some chatJid
               /\ user_answers t = [myId]
               /\ shouldAutomate norm snapshot chatJid (ends_with chatJid "@g.us")
                    (message m) myId = true)).
Proof.
  unfold process_message. walk.
  all: observe; intros c snapshot Hr Hc; injection Hr as <-; cbn [cfg] in Hc.
  all: try solve [exfalso; congruence].
  all: try match goal with
           | H : cfg ?k = Some ?a |- _ =>
               lazymatch type of Hc with
               | cfg k = Some ?b =>
                   tryif constr_eq a b then fail
                   else (assert (a = b) by congruence; subst a)
               end
           end.
  all: try (injection Hc as <-).
  all: split;
    [ intros Hign Hme
    | split;
      [ intros row Hin; cbn [In] in Hin; repeat destruct Hin as [<-|Hin];
        try contradiction; cbn [automated chat_jid]
      | intros Hfetch; try congruence ] ].
  all: try solve [repeat split; reflexivity].
  all: try solve [eexists; split; reflexivity].
  all: try solve [exfalso; cbn [settings] in *;
                  match goal with
                  | H : ignore_from_me _ && _ = false |- _ =>
                      rewrite Hign, Hme in H; discriminate H
                  end].
  all: try solve [eexists _, _; repeat split; try reflexivity; use_flags; eauto].
Qed.

Lemma truthy_lenient (j : JS.value) :
  JS.truthy (if JS.truthy j then j else JS.Obj []) = true.
Proof. destruct (JS.truthy j) eqn:E; [exact E | reflexivity]. Qed.

(** X7: the protocol of one webhook call.  Every run of [callN8n] performs
    exactly three operations: it arms the abort timer (with the configured
    timeout, 15000 ms when that is 0), fetches once with the configured url
    and headers, and clears the timer - also when the call fails.  A rejected
    fetch is rethrown unchanged.  Every 2xx answer gives a result, and a
    result is the status of a 2xx answer together with its parsed body - the
    body itself when it parses to a truthy value, the empty object when it
    parses to a falsy one or does not parse - so the response is always
    truthy. *)
Theorem callN8n_protocol url timeout secret payload :
  runs (callN8n url timeout secret payload)
    (fun t r =>
       ops_of t = [SetAbortTimer (if Z.eqb timeout 0 then 15000%Z else timeout);
                   Fetch url (headers secret) payload;
                   ClearAbortTimer]
       /\ (forall e, fetch_answers t = [Err e] -> r = Err e)
       /\ (forall v st, r = Ok (v, st) ->
           JS.truthy v = true
           /\ exists res, fetch_answers t = [Ok res] /\ ok res = true /\ st = status res
                /\ v = match res_json res with
                       | Ok j => if JS.truthy j then j else JS.Obj []
                       | Err _ => JS.Obj []
                       end)
       /\ (forall res, fetch_answers t = [Ok res] -> ok res = true ->
           exists v, r = Ok (v, status res))).
Proof.
  unfold callN8n. walk.
  all: observe; repeat split; leaf; flags; try congruence.
  all: try solve [eexists; reflexivity].
  - apply truthy_lenient.
  - exists a. repeat split; [assumption|]. destruct (res_json a); reflexivity.
Qed.

End PipelineSpec.

(** ** ConnectionSupervisor, run by run *)

Module StartSpec.
Import Bridge BridgeRun RunsFacts PipelineSpec.

(** X8: one start-up.  Every run of [start] requests at most one pairing
    code.  A request is made only for an unregistered session and only with
    the configured non-empty phone number, and the run then begins: load the
    auth state, fetch the version, log it, make the socket, read
    [registered], sleep 1500 ms, request the code - the request comes
    directly after the sleep.  An unregistered session with a phone number
    configured does get its request.  When the request is rejected, [start]
    throws that error and never registers the event callback; and [start]
    returns normally exactly when it registered the callback. *)
Theorem start_pairing folder phone :
  runs (start folder phone)
    (fun t r =>
       length (pairing_answers t) <= 1
       /\ (forall p, In (RequestPairingCode p) (ops_of t) ->
           p = phone /\ phone <> "" /\ registered_answers t = [false]
           /\ exists rest,
                ops_of t
                = ([UseMultiFileAuthState folder; FetchLatestBaileysVersion;
                    Log info "Using WhatsApp Web version"; MakeWASocket; CredsRegistered;
                    Sleep 1500; RequestPairingCode phone] ++ rest)%list)
       /\ (registered_answers t = [false] -> phone <> "" -> length (pairing_answers t) = 1)
       /\ (forall e, In (Err e) (pairing_answers t) ->
           r = Err e /\ ~ In EvProcess (ops_of t))
       /\ (r = Ok tt <-> In EvProcess (ops_of t))).
Proof.
  unfold start. walk.
  all: observe; cbn [In]; subst; flags.
  all: repeat match goal with
         | H : _ && _ = true |- _ => apply andb_true_iff in H; destruct H
         | H : _ && _ = false |- _ => apply andb_false_iff in H; destruct H
         | H : JS.truthy_str _ = false |- _ =>
             unfold JS.truthy_str in H; apply negb_false_iff, String.eqb_eq in H
         | H : JS.truthy_str _ = true |- _ => apply RuleEngineSpec.truthy_str_spec in H
         | u : unit |- _ => destruct u
         end.
  all: repeat split; intros.
  all: try solve [intuition (try discriminate; try congruence; try lia)].
  all: try solve [repeat match goal with H : _ \/ _ |- _ => destruct H end;
                  try discriminate; try contradiction; try congruence; auto 10].
  all: try solve [eexists; reflexivity].
Qed.

End StartSpec.

(** ** Batches, events and the restart callback *)

Module BatchSpec.
Import Bridge BridgeRun RunsFacts PipelineSpec.

Lemma observe_app (t t' : list event) :
  rows (t ++ t') = (rows t ++ rows t')%list
  /\ inbound_rows (t ++ t') = (inbound_rows t ++ inbound_rows t')%list
  /\ outbound_rows (t ++ t') = (outbound_rows t ++ outbound_rows t')%list
  /\ fetch_answers (t ++ t') = (fetch_answers t ++ fetch_answers t')%list
  /\ sends (t ++ t') = (sends t ++ sends t')%list
  /\ save_answers (t ++ t') = (save_answers t ++ save_answers t')%list.
Proof.
  unfold inbound_rows, outbound_rows, rows, sends, fetch_answers, save_answers, ops_of.
  rewrite !map_app, !flat_map_app, !List.filter_app. repeat split; reflexivity.
Qed.

Lemma rows_app (t t' : list event) : rows (t ++ t') = (rows t ++ rows t')%list.
Proof. apply observe_app. Qed.

Lemma outbound_rows_app (t t' : list event) :
  outbound_rows (t ++ t') = (outbound_rows t ++ outbound_rows t')%list.
Proof. apply observe_app. Qed.

Lemma fetch_answers_app (t t' : list event) :
  fetch_answers (t ++ t') = (fetch_answers t ++ fetch_answers t')%list.
Proof. apply observe_app. Qed.

Lemma sends_app (t t' : list event) : sends (t ++ t') = (sends t ++ sends t')%list.
Proof. apply observe_app. Qed.

Lemma save_answers_app (t t' : list event) :
  save_answers (t ++ t') = (save_answers t ++ save_answers t')%list.
Proof. apply observe_app. Qed.

Ltac split_runs :=
  rewrite ?rows_app, ?outbound_rows_app, ?fetch_answers_app, ?sends_app, ?save_answers_app.

(** Every batch returns normally, with one outbound row per webhook call,
    at most one reply per webhook call, and no credentials saved. *)
Lemma process_messages_balance norm newsletter url timeout secret ms :
  forall cache,
  runs (process_messages norm newsletter url timeout secret cache ms)
    (fun t r =>
       (exists c, r = Ok c)
       /\ length (outbound_rows t) = length (fetch_answers t)
       /\ length (sends t) <= length (fetch_answers t)
       /\ save_answers t = []).
Proof.
  induction ms as [|m ms IH]; intros cache.
  - simpl. repeat split; eauto.
  - cbn [process_messages]. apply runs_bind.
    eapply runs_mono;
      [|apply runs_conj;
        [apply (process_message_counts norm newsletter url timeout secret cache m)
        |apply (process_message_no_save norm newsletter url timeout secret cache m)]].
    intros t r [((c & ->) & _ & _ & Ho & _ & Hs) Hsave].
    eapply runs_mono; [|apply IH].
    intros t' r' (Hc & Ho' & Hs' & Hsave').
    split_runs. rewrite !length_app, Hsave', Hsave.
    repeat split; auto; lia.
Qed.


Lemma on_connection_update_quiet loggedOut update :
  runs (on_connection_update loggedOut update)
    (fun t r =>
       r = Ok tt /\ rows t = [] /\ fetch_answers t = [] /\ sends t = []
       /\ save_answers t = []).
Proof.
  unfold on_connection_update. walk.
  all: repeat match goal with u : unit |- _ => destruct u end; repeat split.
Qed.

(** X9: one run of the event callback.  The callback can only reject
    through [saveCreds]: without a [creds.update] it returns normally and
    saves nothing; when it rejects, the event had a [creds.update], the
    rejection is the one of [saveCreds], and the messages of the same event
    were dropped - no audit row, no webhook call, no reply.  When it returns
    on an event with a [creds.update], the credentials were saved once.  And
    on every run there is one outbound row per webhook call and at most one
    reply per webhook call. *)
Theorem on_events_outcome norm newsletter loggedOut url timeout secret cache events :
  runs (on_events norm newsletter loggedOut url timeout secret cache events)
    (fun t r =>
       (creds_update events = false -> (exists c, r = Ok c) /\ save_answers t = [])
       /\ (forall e, r = Err e ->
           creds_update events = true /\ save_answers t = [Err e]
           /\ rows t = [] /\ fetch_answers t = [] /\ sends t = [])
       /\ (forall c, r = Ok c -> creds_update events = true -> save_answers t = [Ok tt])
       /\ length (outbound_rows t) = length (fetch_answers t)
       /\ length (sends t) <= length (fetch_answers t)).
Proof.
  unfold on_events. apply runs_bind.
  eapply runs_mono with
    (Q := fun t r => r = Ok tt /\ rows t = [] /\ fetch_answers t = [] /\ sends t = []
                     /\ save_answers t = []);
    [|destruct (connection_update events);
      [apply on_connection_update_quiet | cbn; repeat split]].
  intros t r (-> & Hrows & Hfetch & Hsends & Hsave).
  assert (Hout : outbound_rows t = []) by (unfold outbound_rows; rewrite Hrows; reflexivity).
  apply runs_bind. destruct (creds_update events).
  - cbn [runs bind call Prog.call settle]. intros saved. cbv [resp] in saved.
    destruct saved as [[]|e]; cbn [runs bind settle].
    + eapply runs_mono with
        (Q := fun t' r' => (exists c, r' = Ok c)
                /\ length (outbound_rows t') = length (fetch_answers t')
                /\ length (sends t') <= length (fetch_answers t')
                /\ save_answers t' = []).
      2:{ destruct (messages_upsert events) as [upsert|]; [|cbn; repeat split; eauto].
          destruct (negb _); [cbn; repeat split; eauto|].
          apply process_messages_balance. }
      cbv beta. intros t' r' ((c & ->) & Ho & Hs & Hv).
      split_runs. rewrite Hout, Hfetch, Hsends, Hsave, Hv. cbn.
      repeat split; try discriminate; auto.
    + split_runs. rewrite Hout, Hfetch, Hsends, Hsave, Hrows. cbn.
      repeat split; try discriminate; auto. congruence.
  - cbn [runs].
    eapply runs_mono with
      (Q := fun t' r' => (exists c, r' = Ok c)
              /\ length (outbound_rows t') = length (fetch_answers t')
              /\ length (sends t') <= length (fetch_answers t')
              /\ save_answers t' = []).
    2:{ destruct (messages_upsert events) as [upsert|]; [|cbn; repeat split; eauto].
        destruct (negb _); [cbn; repeat split; eauto|].
        apply process_messages_balance. }
    cbv beta. intros t' r' ((c & ->) & Ho & Hs & Hv).
    split_runs. rewrite Hout, Hfetch, Hsends, Hsave, Hv. cbn.
    repeat split; try discriminate; eauto.
Qed.

(** X10: the restart callback contains every failure of [start].  Every run
    of what the reconnect timer runs returns normally, and it logs 'Failed to
    restart' exactly when the new [start] did not get as far as registering
    its event callback. *)
Theorem restart_is_contained folder phone :
  runs (run_callback folder phone Restart)
    (fun t r =>
       r = Ok tt
       /\ (In (error_level, "Failed to restart") (logs t) <-> ~ In EvProcess (ops_of t))).
Proof.
  unfold run_callback, start. walk.
  all: observe; cbn [In]; repeat match goal with u : unit |- _ => destruct u end.
  all: split; [reflexivity|].
  all: split; [intros H; intros H'|intros H].
  all: try solve [repeat match goal with H : _ \/ _ |- _ => destruct H end;
                  try discriminate; try contradiction].
  all: try solve [auto 12].
  all: try solve [exfalso; apply H; auto 12].
Qed.

End BatchSpec.

(** ** Configuration load, text extraction and the contact modes *)

Module ConfigSpec.
Import Bridge BridgeRun RunsFacts PipelineSpec.

Lemma find_app_last {A} (f : A -> bool) (l : list A) (x : A) :
  List.find f (l ++ [x]) =
  match List.find f l with
  | Some y => Some y
  | None => if f x then Some x else None
  end.
Proof.
  induction l as [|y l IH]; simpl; [reflexivity|].
  destruct (f y); [reflexivity | exact IH].
Qed.

Lemma index_rules_lookup (rules : list EntityRuleRow)
    (c g : gmap string EntityRuleRow) (j : string) :
  fst (index_rules rules (c, g)) !! j =
    match List.find (fun r => String.eqb (jid r) j && String.eqb (type r) "contact")
            (rev rules) with
    | Some r => Some r
    | None => c !! j
    end
  /\ snd (index_rules rules (c, g)) !! j =
    match List.find (fun r => String.eqb (jid r) j && negb (String.eqb (type r) "contact"))
            (rev rules) with
    | Some r => Some r
    | None => g !! j
    end.
Proof.
  revert c g. induction rules as [|r rules IH]; intros c g; [split; reflexivity|].
  cbn [index_rules rev fst snd]. rewrite !find_app_last.
  destruct (String.eqb (type r) "contact") eqn:Ht; cbn [negb];
    rewrite ?andb_true_r, ?andb_false_r;
    match goal with |- context [index_rules rules (?c', ?g')] =>
      destruct (IH c' g') as [-> ->] end;
    split;
    repeat match goal with
      | |- context [List.find ?f (rev rules)] => destruct (List.find f (rev rules))
      end;
    try reflexivity;
    destruct (String.eqb_spec (jid r) j) as [->|Hne];
    solve [apply lookup_insert_eq | apply lookup_insert_ne; exact Hne].
Qed.

(** X11: loading the configuration.  When the settings query reports an
    error or no row, [loadRuntimeConfig] throws 'Failed to load app_settings:
    ' followed by the error message ('missing row' when there is none) and
    never queries the rules.  When the rules query reports an error it throws
    'Failed to load entity_rules: ' with the message.  When it returns, it
    made exactly the two queries, both without error; the settings are the
    row returned; and each jid maps, among the contacts, to the last returned
    rule row for that jid with type 'contact', and among the groups to the
    last one with any other type - a later row overrides an earlier one, and
    no row lands in both maps. *)
Theorem loadRuntimeConfig_outcome :
  runs loadRuntimeConfig
    (fun t r =>
       (forall answer,
          settings_answers t = [answer] ->
          error answer <> None \/ data answer = None ->
          r = Err ("Failed to load app_settings: " ++ JS.or_str (error answer) "missing row")
          /\ ops_of t = [SelectAppSettings])
       /\ (forall answer message,
             rules_answers t = [answer] -> error answer = Some message ->
             r = Err ("Failed to load entity_rules: " ++ message))
       /\ (forall loaded,
             r = Ok loaded ->
             ops_of t = [SelectAppSettings; SelectEntityRules]
             /\ exists answer listed,
                  settings_answers t = [answer] /\ error answer = None
                  /\ data answer = Some (settings loaded)
                  /\ rules_answers t = [listed] /\ error listed = None
                  /\ forall j,
                       contacts loaded !! j
                       = List.find (fun row => String.eqb (jid row) j
                                               && String.eqb (type row) "contact")
                           (rev (default [] (data listed)))
                       /\ groups loaded !! j
                          = List.find (fun row => String.eqb (jid row) j
                                                  && negb (String.eqb (type row) "contact"))
                              (rev (default [] (data listed))))).
Proof.
  unfold loadRuntimeConfig. walk.
  all: observe; repeat split; leaf; try congruence.
  all: try solve [destruct H0; congruence].
  all: try solve [match goal with H : [] = [_] |- _ => discriminate H end].
  - eexists _, _. repeat split; eauto; cbn [contacts groups].
    + destruct (index_rules_lookup (default [] (data x0)) ∅ ∅ j) as [-> _].
      rewrite lookup_empty. destruct (List.find _ _); reflexivity.
    + destruct (index_rules_lookup (default [] (data x0)) ∅ ∅ j) as [_ ->].
      rewrite lookup_empty. destruct (List.find _ _); reflexivity.
Qed.

(** X12: the text of a message.  [extractText] never returns the empty
    string: a message has a text or it has none.  Without a message there is
    none; with one, the text is the first non-empty field in the order
    conversation, extended text, image caption, video caption, document
    caption, so an empty earlier field does not hide a later one. *)
Theorem extractText_spec (msg : option IMessage) :
  (forall s, extractText msg = Some s -> s <> "")
  /\ (extractText None = None)
  /\ (forall m,
        msg = Some m ->
        extractText msg =
        match List.find JS.truthy_opt
                [conversation m; ext_text (extendedTextMessage m);
                 media_caption (imageMessage m); media_caption (videoMessage m);
                 media_caption (documentMessage m)] with
        | Some found => found
        | None => None
        end).
Proof.
  split; [|split; [reflexivity|]].
  - intros s. destruct msg as [m|]; [|discriminate]. unfold extractText.
    repeat match goal with
      | |- (if JS.truthy_opt ?o then _ else _) = _ -> _ =>
          let E := fresh "E" in
          destruct (JS.truthy_opt o) eqn:E;
          [intros H; rewrite H in E; apply RuleEngineSpec.truthy_str_spec in E; exact E|]
      end.
    discriminate.
  - intros m ->. unfold extractText. cbn [List.find].
    repeat match goal with
      | |- context [if JS.truthy_opt ?o then _ else _] =>
          destruct (JS.truthy_opt o); [reflexivity|]
      end.
    reflexivity.
Qed.

(** X13: every contact mode other than 'allowlist' is a denylist.  For a
    direct chat under a [contacts_mode] that is not 'allowlist' - 'denylist',
    but also an empty or a misspelt one - the decision is false exactly when
    the chat has a contact row whose rule is 'disabled'; every other chat is
    automated. *)
Theorem shouldAutomate_other_mode (norm : string -> string) (cfg : RuntimeConfig)
    (chatJid : string) (msg : option IMessage) (myJid : option string) :
  contacts_mode (settings cfg) <> "allowlist" ->
  (shouldAutomate norm cfg chatJid false msg myJid = false <->
   rule <$> contacts cfg !! chatJid = Some "disabled").
Proof.
  intros Hmode. unfold shouldAutomate. cbv zeta.
  rewrite (RuleEngineSpec.direct_override_spec cfg chatJid).
  destruct (String.eqb_spec (contacts_mode (settings cfg)) "allowlist"); [contradiction|].
  simpl. destruct (contacts cfg !! chatJid) as [row|]; simpl.
  - case_decide as He.
    + rewrite He. simpl. split; discriminate.
    + destruct (String.eqb_spec (rule row) "disabled") as [Hr|Hr].
      * rewrite Hr. split; reflexivity.
      * split; [discriminate | congruence].
  - split; discriminate.
Qed.

Lemma shouldAutomate_other_mode_witness :
  contacts_mode (settings (Samples.config "allowList" "disabled" "default" "enabled"))
  <> "allowlist"
  /\ shouldAutomate (fun j => j) (Samples.config "allowList" "disabled" "default" "enabled")
       "unknown@s.whatsapp.net" false None None = true.
Proof.
  assert (Hmode : contacts_mode
                    (settings (Samples.config "allowList" "disabled" "default" "enabled"))
                  <> "allowlist") by (vm_compute; discriminate).
  split; [exact Hmode|].
  apply not_false_iff_true. intros Hfalse.
  apply (shouldAutomate_other_mode (fun j => j) _ "unknown@s.whatsapp.net" None None Hmode)
    in Hfalse.
  vm_compute in Hfalse. discriminate Hfalse.
Defined.

End ConfigSpec.

(** ** The start-up environment *)

Module EnvSpec.
Import BridgeRun.

Lemma trim_start_empty (s : string) :
  JS.trim_start s = "" <->
  Forall (fun c => JS.is_white_space c = true) (list_ascii_of_string s).
Proof.
  induction s as [|c s IH]; simpl.
  - split; [constructor | reflexivity].
  - destruct (JS.is_white_space c) eqn:Hc.
    + rewrite IH. split; [intros H; constructor; assumption|].
      intros H. inversion H; assumption.
    + split; [discriminate|]. intros H. inversion H; congruence.
Qed.

Lemma trim_end_empty (s : string) :
  JS.trim_end s = "" <->
  Forall (fun c => JS.is_white_space c = true) (list_ascii_of_string s).
Proof.
  induction s as [|c s IH]; simpl.
  - split; [constructor | reflexivity].
  - destruct (JS.trim_end s) eqn:Ht.
    + destruct (JS.is_white_space c) eqn:Hc.
      * split; [intros _; constructor; [assumption | apply IH; reflexivity] | reflexivity].
      * split; [discriminate|]. intros H. inversion H; congruence.
    + split; [discriminate|]. intros H. inversion H as [|? ? _ Hs].
      apply IH in Hs. discriminate.
Qed.

Lemma trim_start_head (s : string) (c : ascii) (t : string) :
  JS.trim_start s = String c t -> JS.is_white_space c = false.
Proof.
  induction s as [|d s IH]; simpl; [discriminate|].
  destruct (JS.is_white_space d) eqn:Hd; [exact IH|].
  intros H. injection H as -> _. exact Hd.
Qed.

Lemma trim_empty (s : string) :
  JS.trim s = "" <->
  Forall (fun c => JS.is_white_space c = true) (list_ascii_of_string s).
Proof.
  unfold JS.trim. rewrite trim_end_empty. rewrite <- (trim_start_empty s).
  destruct (JS.trim_start s) as [|c t] eqn:Hs.
  - simpl. split; [reflexivity | intros _; constructor].
  - split; [|discriminate]. intros H. simpl in H. inversion H as [|? ? Hc _].
    apply trim_start_head in Hs. congruence.
Qed.

(** X14: reading the environment.  [env] fails exactly for a required
    variable that is unset or holds nothing but white space, and then with
    the message 'Missing env ' followed by the key; in every other case it
    returns the value trimmed.  So a required variable is never returned
    empty, and an optional variable that is unset is the empty string. *)
Theorem env_required (process_env : gmap string string) (key : string) (required : bool) :
  let raw := default "" (process_env !! key) in
  let blank := Forall (fun c => JS.is_white_space c = true) (list_ascii_of_string raw) in
  (env process_env key required = Err ("Missing env " ++ key) <-> required = true /\ blank)
  /\ (env process_env key required = Ok (JS.trim raw) <-> ~ (required = true /\ blank))
  /\ (forall v, env process_env key true = Ok v -> v <> "")
  /\ (process_env !! key = None -> env process_env key false = Ok "").
Proof.
  intros raw blank.
  assert (Hraw : JS.or_str (process_env !! key) "" = raw).
  { unfold raw, JS.or_str. destruct (process_env !! key) as [s|]; simpl; [|reflexivity].
    unfold JS.truthy_str. destruct (String.eqb_spec s ""); simpl; congruence. }
  assert (Hblank : JS.truthy_str (JS.trim raw) = false <-> blank).
  { unfold blank. rewrite <- trim_empty. unfold JS.truthy_str.
    destruct (String.eqb_spec (JS.trim raw) ""); simpl; split; congruence. }
  assert (Henv : forall req, env process_env key req =
            if negb (JS.truthy_str (JS.trim raw)) && req then Err ("Missing env " ++ key)
            else Ok (JS.trim raw)).
  { intros req. unfold env. rewrite Hraw. reflexivity. }
  assert (Hcond : negb (JS.truthy_str (JS.trim raw)) && required = true
                  <-> required = true /\ blank).
  { rewrite <- Hblank, andb_true_iff, negb_true_iff. tauto. }
  split; [|split; [|split]].
  - rewrite Henv. destruct (negb (JS.truthy_str (JS.trim raw)) && required).
    + split; [intros _; apply Hcond; reflexivity | reflexivity].
    + split; [discriminate|]. intros H. apply Hcond in H. discriminate.
  - rewrite Henv. destruct (negb (JS.truthy_str (JS.trim raw)) && required).
    + split; [discriminate|]. intros H. exfalso. apply H, Hcond. reflexivity.
    + split; [|reflexivity]. intros _ H. apply Hcond in H. discriminate.
  - intros v. rewrite Henv.
    destruct (JS.truthy_str (JS.trim raw)) eqn:Ht; simpl; [|discriminate].
    intros [= <-] E. rewrite E in Ht. discriminate.
  - intros Hnone. rewrite Henv, andb_false_r. unfold raw. rewrite Hnone. reflexivity.
Qed.

End EnvSpec.

(** ** The Supabase auth state: writes *)

Module StoreSpec.
Import SupabaseAuth SupabaseStore ProgFacts RunsFacts.

Section Store.
Variables jsonEncode jsonDecode : JS.value -> JS.value.
Variable instanceId : string.

Lemma upserts_of_app (es es' : list (string * string * JS.value)) :
  upserts_of jsonEncode instanceId (es ++ es')
  = (upserts_of jsonEncode instanceId es ++ upserts_of jsonEncode instanceId es')%list.
Proof. apply flat_map_app. Qed.

Lemma deletes_of_app (es es' : list (string * string * JS.value)) :
  deletes_of (es ++ es') = (deletes_of es ++ deletes_of es')%list.
Proof. apply flat_map_app. Qed.

Lemma sort_ids_spec (category : string) (ids : list (string * JS.value))
    (acc : list KeyRow * list (string * string)) :
  sort_ids jsonEncode instanceId category ids acc =
  let es := map (fun '(key, value) => (category, key, value)) ids in
  ((fst acc ++ upserts_of jsonEncode instanceId es)%list, (snd acc ++ deletes_of es)%list).
Proof.
  cbv zeta. revert acc. induction ids as [|[key value] ids IH]; intros acc.
  - simpl. rewrite !app_nil_r. destruct acc; reflexivity.
  - cbn [sort_ids map]. rewrite IH.
    change ((category, key, value) :: ?l) with ([(category, key, value)] ++ l)%list.
    rewrite upserts_of_app, deletes_of_app.
    destruct (JS.truthy value) eqn:Hv; cbn [fst snd];
      unfold upserts_of at 2, deletes_of at 2; cbn [flat_map]; rewrite Hv;
      rewrite ?app_nil_r, <- ?app_assoc; reflexivity.
Qed.

(** The two loops of [keys.set] split the entries by truthiness and keep
    their order. *)
Lemma sort_categories_spec (data : KeyData) (acc : list KeyRow * list (string * string)) :
  sort_categories jsonEncode instanceId data acc =
  ((fst acc ++ upserts_of jsonEncode instanceId (entries data))%list,
   (snd acc ++ deletes_of (entries data))%list).
Proof.
  revert acc. induction data as [|[category ids] data IH]; intros acc.
  - simpl. rewrite !app_nil_r. destruct acc; reflexivity.
  - cbn [sort_categories]. rewrite IH, sort_ids_spec. cbv zeta. cbn [fst snd].
    unfold entries. cbn [flat_map]. fold (entries data).
    rewrite upserts_of_app, deletes_of_app, <- !app_assoc. reflexivity.
Qed.

Lemma keys_set_plan (data : KeyData) :
  keys_set jsonEncode instanceId data =
  bind (match upserts_of jsonEncode instanceId (entries data) with
        | [] => Ret tt
        | rows =>
            bind (call (UpsertKeys rows))
              (fun upserted =>
                 match Bridge.error upserted with
                 | Some message => Throw ("Failed to upsert wa_auth_keys: " ++ message)
                 | None => Ret tt
                 end)
        end)
       (fun _ => delete_each instanceId (deletes_of (entries data))).
Proof.
  unfold keys_set. rewrite sort_categories_spec. cbn [fst snd app].
  destruct (upserts_of jsonEncode instanceId (entries data)); reflexivity.
Qed.

Lemma runs_delete_each (deletes : list (string * string)) :
  runs (delete_each instanceId deletes)
    (fun t r =>
       exists rest,
         map (fun '(category, key) => DeleteKey instanceId category key) deletes
         = (ops_of t ++ rest)%list
         /\ match r with
            | Ok _ => rest = [] /\ Forall (eq None) (write_errors t)
            | Err e =>
                exists pre message,
                  write_errors t = (pre ++ [Some message])%list
                  /\ Forall (eq None) pre
                  /\ e = "Failed to delete wa_auth_keys: " ++ message
            end).
Proof.
  induction deletes as [|[category key] deletes IH].
  - simpl. exists []. repeat split. constructor.
  - cbn [delete_each bind call Prog.call runs]. intros x.
    destruct (Bridge.error x) as [message|] eqn:Hx.
    + cbn [runs].
      exists (map (fun '(category, key) => DeleteKey instanceId category key) deletes).
      split; [reflexivity|]. exists [], message.
      unfold write_errors. cbn [flat_map app]. rewrite Hx. repeat split. constructor.
    + eapply runs_mono; [|exact IH]. cbv beta.
      intros t r (rest & Hops & Hr). exists rest. split.
      * cbn [map ops_of projT1 app]. unfold ops_of in Hops. rewrite Hops. reflexivity.
      * unfold write_errors. cbn [flat_map app]. fold (write_errors t). rewrite Hx.
        destruct r as [u|e].
        -- destruct Hr as [-> Hall]. split; [reflexivity|].
           constructor; [reflexivity|exact Hall].
        -- destruct Hr as (pre & message & Hw & Hpre & ->).
           exists (None :: pre), message. rewrite Hw. repeat split.
           constructor; [reflexivity|exact Hpre].
Qed.

(** X15: the writes of [keys.set].  Every run performs a prefix of one plan:
    one batched upsert of the rows of all truthy values, each encoded (no
    upsert when there is no such value), then one delete per falsy value, in
    the order of the entries.  The run returns exactly when the whole plan
    ran and no write reported an error; it throws at the first write that
    reports one, naming that error, so a failed upsert is followed by no
    delete and a failed delete by no later one. *)
Theorem keys_set_protocol (data : KeyData) :
  runs (keys_set jsonEncode instanceId data)
    (fun t r =>
       exists rest,
         planned jsonEncode instanceId data = (ops_of t ++ rest)%list
         /\ match r with
            | Ok _ => rest = [] /\ Forall (eq None) (write_errors t)
            | Err e =>
                exists pre message,
                  write_errors t = (pre ++ [Some message])%list
                  /\ Forall (eq None) pre
                  /\ (e = "Failed to upsert wa_auth_keys: " ++ message
                      /\ ops_of t
                         = [UpsertKeys (upserts_of jsonEncode instanceId (entries data))]
                      \/ e = "Failed to delete wa_auth_keys: " ++ message)
            end).
Proof.
  rewrite keys_set_plan. unfold planned.
  destruct (upserts_of jsonEncode instanceId (entries data)) as [|row rows'] eqn:Hu.
  - cbn [bind app]. eapply runs_mono; [|apply runs_delete_each]. cbv beta.
    intros t r (rest & Hops & Hr). exists rest. split; [exact Hops|].
    destruct r as [u|e]; [exact Hr|].
    destruct Hr as (pre & message & Hw & Hpre & He).
    exists pre, message. repeat split; auto.
  - cbn [bind call Prog.call runs]. intros x.
    destruct (Bridge.error x) as [message|] eqn:Hx.
    + cbn [bind runs]. eexists. split; [reflexivity|].
      exists [], message. unfold write_errors. cbn [flat_map app]. rewrite Hx.
      repeat split; [constructor|]. left. split; reflexivity.
    + cbn [bind]. eapply runs_mono; [|apply runs_delete_each]. cbv beta.
      intros t r (rest & Hops & Hr). exists rest. split.
      * cbn [ops_of map projT1 app]. unfold ops_of in Hops. rewrite Hops. reflexivity.
      * unfold write_errors. cbn [flat_map app]. fold (write_errors t). rewrite Hx.
        destruct r as [u|e].
        -- destruct Hr as [-> Hall]. split; [reflexivity|].
           constructor; [reflexivity|exact Hall].
        -- destruct Hr as (pre & message & Hw & Hpre & ->).
           exists (None :: pre), message. rewrite Hw. repeat split.
           ++ constructor; [reflexivity|exact Hpre].
           ++ right. reflexivity.
Qed.

(** X16: [loadCreds] asks for the stored credentials once.  When the query
    reports an error it throws without writing anything.  When the query
    finds usable credentials it returns them decoded, makes no new ones and
    writes nothing, so a load never overwrites stored credentials.  Otherwise
    it asks [initAuthCreds] once, upserts what that made, encoded, and
    returns exactly what that made, and only when the write reported no
    error; when the write fails, it throws. *)
Theorem loadCreds_protocol :
  runs (loadCreds jsonEncode jsonDecode instanceId)
    (fun t r =>
       exists selected,
         creds_answers t = [selected]
         /\ let stored :=
              match Bridge.data selected with
              | Some row => creds row
              | None => JS.Null
              end in
            match r with
            | Ok loaded =>
                Bridge.error selected = None
                /\ if JS.truthy stored then
                     loaded = jsonDecode stored
                     /\ ops_of t = [SelectCreds instanceId]
                     /\ init_answers t = []
                   else
                     init_answers t = [loaded]
                     /\ ops_of t = [SelectCreds instanceId; InitAuthCreds;
                                    UpsertCreds instanceId (jsonEncode loaded)]
                     /\ write_errors t = [None]
            | Err e =>
                match Bridge.error selected with
                | Some message =>
                    e = "Failed to load wa_auth_creds: " ++ message
                    /\ ops_of t = [SelectCreds instanceId]
                    /\ init_answers t = []
                | None =>
                    JS.truthy stored = false
                    /\ exists made message,
                         init_answers t = [made]
                         /\ ops_of t = [SelectCreds instanceId; InitAuthCreds;
                                        UpsertCreds instanceId (jsonEncode made)]
                         /\ write_errors t = [Some message]
                         /\ e = "Failed to init wa_auth_creds: " ++ message
                end
            end).
Proof.
  unfold loadCreds. cbn [bind call Prog.call runs]. intros selected.
  destruct (Bridge.error selected) as [message|] eqn:Hsel.
  - cbn [runs]. exists selected. split; [reflexivity|]. cbv zeta. rewrite Hsel.
    repeat split.
  - destruct (JS.truthy _) eqn:Hstored; cbn [negb bind call Prog.call runs].
    + exists selected. split; [reflexivity|]. cbv zeta. rewrite Hsel, Hstored.
      repeat split.
    + intros made upserted. destruct (Bridge.error upserted) as [message|] eqn:Hup;
        cbn [runs]; exists selected; (split; [reflexivity|]); cbv zeta;
        rewrite ?Hsel, Hstored.
      * split; [reflexivity|]. exists made, message.
        unfold write_errors. cbn [flat_map app]. rewrite Hup. repeat split.
      * split; [reflexivity|]. unfold write_errors. cbn [flat_map app]. rewrite Hup.
        repeat split.
Qed.

End Store.
End StoreSpec.

(** ** The Supabase auth state against its tables *)

Module TablesSpec.
Import SupabaseAuth SupabaseStore ProgFacts RunsFacts StoreSpec.
#[local] Set Warnings "-clear-no-such-hyp".

Section Tables.
Variables jsonEncode jsonDecode fromObject : JS.value -> JS.value.
Variable set_inherited : JS.value -> string -> JS.value -> Out -> result Out.
Variable fresh : JS.value.
Variable instanceId : string.

Lemma run_delete_each (deletes : list (string * string)) (tables : Tables) :
  run_writes fresh (delete_each instanceId deletes) tables =
  (Ok tt,
   {| wa_auth_creds := wa_auth_creds tables;
      wa_auth_keys :=
        fold_left (fun keys '(category, key) => delete (instanceId, category, key) keys)
          deletes (wa_auth_keys tables) |}).
Proof.
  revert tables. induction deletes as [|[category key] deletes IH]; intros tables.
  - destruct tables; reflexivity.
  - cbn [delete_each bind call Prog.call run_writes write]. cbn [succeeded Bridge.error].
    rewrite IH. reflexivity.
Qed.

Lemma run_keys_set (data : KeyData) (tables : Tables) :
  run_writes fresh (keys_set jsonEncode instanceId data) tables =
  (Ok tt,
   {| wa_auth_creds := wa_auth_creds tables;
      wa_auth_keys :=
        fold_left (fun keys '(category, key) => delete (instanceId, category, key) keys)
          (deletes_of (entries data))
          (fold_left upsert_key (upserts_of jsonEncode instanceId (entries data))
             (wa_auth_keys tables)) |}).
Proof.
  rewrite keys_set_plan.
  destruct (upserts_of jsonEncode instanceId (entries data)) as [|row rows'].
  - cbn [bind]. rewrite run_delete_each. reflexivity.
  - cbn [bind call Prog.call run_writes write]. cbn [succeeded Bridge.error bind].
    rewrite run_delete_each. reflexivity.
Qed.

Lemma fold_upsert_other (rows : list KeyRow) (keys : gmap (string * string * string) JS.value)
    (k : string * string * string) :
  (forall r, In r rows -> (instance_id r, type r, id r) <> k) ->
  fold_left upsert_key rows keys !! k = keys !! k.
Proof.
  revert keys. induction rows as [|r rows IH]; intros keys Hother; [reflexivity|].
  cbn [fold_left]. rewrite IH by (intros r' Hr'; apply Hother; right; exact Hr').
  unfold upsert_key. apply lookup_insert_ne. apply Hother. left. reflexivity.
Qed.

Lemma fold_upsert_same (rows : list KeyRow) (keys : gmap (string * string * string) JS.value)
    (k : string * string * string) (d : JS.value) :
  (forall r, In r rows -> (instance_id r, type r, id r) = k -> data r = d) ->
  (exists r, In r rows /\ (instance_id r, type r, id r) = k) \/ keys !! k = Some d ->
  fold_left upsert_key rows keys !! k = Some d.
Proof.
  revert keys. induction rows as [|r rows IH]; intros keys Hsame Hsome.
  - destruct Hsome as [(r & [] & _)|Hk]. exact Hk.
  - cbn [fold_left]. apply IH; [intros r' Hr'; apply Hsame; right; exact Hr'|].
    unfold upsert_key.
    destruct (decide ((instance_id r, type r, id r) = k)) as [Hk|Hk].
    + right. rewrite Hk, lookup_insert_eq. f_equal. apply Hsame; [left; reflexivity|exact Hk].
    + rewrite lookup_insert_ne by exact Hk.
      destruct Hsome as [(r' & [<-|Hr'] & Hk')|Hkeys]; [contradiction| |right; exact Hkeys].
      left. exists r'. split; assumption.
Qed.

Lemma fold_delete_other (deletes : list (string * string))
    (keys : gmap (string * string * string) JS.value) (k : string * string * string) :
  (forall category key, In (category, key) deletes -> (instanceId, category, key) <> k) ->
  fold_left (fun keys '(category, key) => delete (instanceId, category, key) keys)
    deletes keys !! k = keys !! k.
Proof.
  revert keys. induction deletes as [|[category key] deletes IH]; intros keys Hother;
    [reflexivity|].
  cbn [fold_left]. rewrite IH by (intros c i Hin; apply Hother; right; exact Hin).
  apply lookup_delete_ne. apply Hother. left. reflexivity.
Qed.

Lemma fold_delete_in (deletes : list (string * string))
    (keys : gmap (string * string * string) JS.value) (category key : string) :
  In (category, key) deletes \/ keys !! (instanceId, category, key) = None ->
  fold_left (fun keys '(category, key) => delete (instanceId, category, key) keys)
    deletes keys !! (instanceId, category, key) = None.
Proof.
  revert keys. induction deletes as [|[c i] deletes IH]; intros keys Hin.
  - destruct Hin as [[]|Hk]. exact Hk.
  - cbn [fold_left]. apply IH.
    destruct (decide ((instanceId, c, i) = (instanceId, category, key))) as [Hk|Hk].
    + right. rewrite Hk. apply lookup_delete_eq.
    + rewrite lookup_delete_ne by exact Hk.
      destruct Hin as [[Heq|Hin]|Hkeys]; [|left; exact Hin|right; exact Hkeys].
      injection Heq as -> ->. contradiction.
Qed.

Lemma entries_functional {K V} (es : list (K * V)) (k : K) (v v' : V) :
  NoDup (map fst es) -> In (k, v) es -> In (k, v') es -> v = v'.
Proof.
  induction es as [|[k0 v0] es IH]; intros Hnd Hv Hv'; [destruct Hv|].
  cbn [map fst] in Hnd. apply NoDup_cons in Hnd as [Hnotin Hnd].
  assert (Hfst : forall w, In (k0, w) es -> False).
  { intros w Hw. apply Hnotin. apply list_elem_of_In. apply in_map_iff.
    exists (k0, w). split; [reflexivity|exact Hw]. }
  destruct Hv as [Hv|Hv], Hv' as [Hv'|Hv'].
  - congruence.
  - injection Hv as <- <-. exfalso. eapply Hfst, Hv'.
  - injection Hv' as <- <-. exfalso. eapply Hfst, Hv.
  - apply IH; assumption.
Qed.

Lemma in_upserts_of (es : list (string * string * JS.value)) (r : KeyRow) :
  In r (upserts_of jsonEncode instanceId es) <->
  exists category key value,
    In (category, key, value) es /\ JS.truthy value = true
    /\ r = {| instance_id := instanceId; type := category; id := key;
              data := jsonEncode value |}.
Proof.
  unfold upserts_of. rewrite in_flat_map. split.
  - intros ([[category key] value] & Hin & Hr).
    destruct (JS.truthy value) eqn:Hv; [|destruct Hr].
    destruct Hr as [<-|[]]. exists category, key, value. auto.
  - intros (category & key & value & Hin & Hv & ->).
    exists (category, key, value). split; [exact Hin|]. rewrite Hv. left. reflexivity.
Qed.

Lemma in_deletes_of (es : list (string * string * JS.value)) (category key : string) :
  In (category, key) (deletes_of es) <->
  exists value, In (category, key, value) es /\ JS.truthy value = false.
Proof.
  unfold deletes_of. rewrite in_flat_map. split.
  - intros ([[c i] value] & Hin & Hr).
    destruct (JS.truthy value) eqn:Hv; [destruct Hr|].
    destruct Hr as [[= -> ->]|[]]. exists value. auto.
  - intros (value & Hin & Hv).
    exists (category, key, value). split; [exact Hin|]. rewrite Hv. left. reflexivity.
Qed.

(** The key table after the upserts and the deletes of [keys.set], at the
    key of an entry. *)
Lemma keys_after_set_entry (data : KeyData) (keys : gmap (string * string * string) JS.value)
    (category key : string) (value : JS.value) :
  NoDup (map fst (entries data)) ->
  In (category, key, value) (entries data) ->
  fold_left (fun keys '(category, key) => delete (instanceId, category, key) keys)
    (deletes_of (entries data))
    (fold_left upsert_key (upserts_of jsonEncode instanceId (entries data)) keys)
    !! (instanceId, category, key)
  = if JS.truthy value then Some (jsonEncode value) else None.
Proof.
  intros Hnd Hin. destruct (JS.truthy value) eqn:Hv.
  - rewrite fold_delete_other.
    + apply fold_upsert_same.
      * intros r Hr Hk. apply in_upserts_of in Hr as (c & i & v & Hin' & _ & ->).
        cbn in Hk. injection Hk as -> ->. cbn. f_equal.
        exact (entries_functional _ _ _ _ Hnd Hin' Hin).
      * left.
        exists {| instance_id := instanceId; type := category; id := key;
                  data := jsonEncode value |}.
        split; [|reflexivity]. apply in_upserts_of. exists category, key, value. auto.
    + intros c i Hdel Hk. injection Hk as -> ->.
      apply in_deletes_of in Hdel as (v & Hin' & Hv').
      rewrite (entries_functional _ _ _ _ Hnd Hin' Hin) in Hv'. congruence.
  - apply fold_delete_in. left. apply in_deletes_of. eauto.
Qed.

(** X17: [keys.set] against the tables.  It returns, and afterwards the key
    table holds, for every entry with a truthy value, the encoded value
    under (instance, category, id); it holds no row for an entry with a
    falsy value; and it is unchanged at every other key, so the rows of other
    instances, categories and ids are not touched, and neither is the
    credentials table. *)
Theorem keys_set_tables (data : KeyData) (tables : Tables) :
  NoDup (map fst (entries data)) ->
  let after := snd (run_writes fresh (keys_set jsonEncode instanceId data) tables) in
  fst (run_writes fresh (keys_set jsonEncode instanceId data) tables) = Ok tt
  /\ (forall category key value,
        In (category, key, value) (entries data) ->
        wa_auth_keys after !! (instanceId, category, key)
        = if JS.truthy value then Some (jsonEncode value) else None)
  /\ (forall k,
        (forall category key value,
           In (category, key, value) (entries data) -> k <> (instanceId, category, key)) ->
        wa_auth_keys after !! k = wa_auth_keys tables !! k)
  /\ wa_auth_creds after = wa_auth_creds tables.
Proof.
  intros Hnd after. subst after. rewrite run_keys_set. cbn [fst snd wa_auth_keys wa_auth_creds].
  split; [reflexivity|]. split; [|split; [|reflexivity]].
  - intros category key value Hin. apply keys_after_set_entry; assumption.
  - intros k Hother. rewrite fold_delete_other, fold_upsert_other; [reflexivity| |].
    + intros r Hr Hk. apply in_upserts_of in Hr as (c & i & v & Hin' & _ & ->).
      cbn in Hk. symmetry in Hk. exact (Hother _ _ _ Hin' Hk).
    + intros c i Hdel Hk. apply in_deletes_of in Hdel as (v & Hin' & _).
      symmetry in Hk. exact (Hother _ _ _ Hin' Hk).
Qed.

Lemma find_select_keys (tables : Tables) (category : string) (ids : list string)
    (key : string) :
  List.find (fun r => String.eqb (id r) key) (select_keys tables instanceId category ids)
  = if decide (key ∈ ids) then
      (fun stored => {| instance_id := instanceId; type := category; id := key;
                        data := stored |})
        <$> wa_auth_keys tables !! (instanceId, category, key)
    else None.
Proof.
  unfold select_keys.
  assert (Hdec : forall l : list string,
    (key ∈ l <-> key ∈ ids) ->
    (if decide (key ∈ l) then
      (fun stored => {| instance_id := instanceId; type := category; id := key;
                        data := stored |})
        <$> wa_auth_keys tables !! (instanceId, category, key)
    else None) =
    (if decide (key ∈ ids) then
      (fun stored => {| instance_id := instanceId; type := category; id := key;
                        data := stored |})
        <$> wa_auth_keys tables !! (instanceId, category, key)
    else None)).
  { intros l Hl. destruct (decide (key ∈ l)), (decide (key ∈ ids)); tauto. }
  rewrite <- (Hdec (remove_dups ids)) by apply elem_of_remove_dups.
  clear Hdec. generalize (remove_dups ids) as l. clear ids.
  induction l as [|j l IH].
  - rewrite decide_False by (intros H; inversion H). reflexivity.
  - cbn [omap list_omap].
    destruct (wa_auth_keys tables !! (instanceId, category, j)) as [stored|] eqn:Hj;
      cbn [fmap option_fmap option_map].
    + cbn [List.find id]. destruct (String.eqb_spec j key) as [->|Hne].
      * rewrite decide_True by left. rewrite Hj. reflexivity.
      * rewrite IH. destruct (decide (key ∈ l)) as [Hin|Hnin].
        -- rewrite decide_True by (right; exact Hin). reflexivity.
        -- rewrite decide_False; [reflexivity|].
           intros H. inversion H; subst; contradiction.
    + rewrite IH. destruct (decide (j = key)) as [->|Hne].
      * rewrite Hj. rewrite (decide_True (P := key ∈ key :: l)) by left.
        destruct (decide (key ∈ l)); reflexivity.
      * destruct (decide (key ∈ l)) as [Hin|Hnin].
        -- rewrite decide_True by (right; exact Hin). reflexivity.
        -- rewrite decide_False; [reflexivity|].
           intros H. inversion H; subst; contradiction.
Qed.

(** X18: [keys.set] followed by [keys.get], against the tables, with an
    encoding that keeps truthy values truthy and a request that does not name
    [__proto__].  [keys.get] then returns an object that owns exactly the
    requested ids, with its prototype untouched, in which every requested id
    that [keys.set] wrote in that category maps to the value written,
    encoded and decoded (and passed through [fromObject] for
    'app-state-sync-key'), and every requested id that [keys.set] was given
    with a falsy value maps to [null]. *)
Theorem keys_set_then_get (data : KeyData) (tables : Tables)
    (category : string) (ids : list string) :
  NoDup (map fst (entries data)) ->
  (forall value, JS.truthy value = true -> JS.truthy (jsonEncode value) = true) ->
  "__proto__" ∉ ids ->
  let after := snd (run_writes fresh (keys_set jsonEncode instanceId data) tables) in
  exists out : Out,
    fst (exec (read_world after)
           (keys_get jsonDecode fromObject set_inherited instanceId category ids))
    = Ok out
    /\ dom (own out) = list_to_set ids
    /\ prototype out = ObjectPrototype
    /\ forall key value,
         key ∈ ids -> In (category, key, value) (entries data) ->
         own out !! key =
         Some (if JS.truthy value then
                 if String.eqb category "app-state-sync-key"
                    && JS.truthy (jsonDecode (jsonEncode value))
                 then fromObject (jsonDecode (jsonEncode value))
                 else jsonDecode (jsonEncode value)
               else JS.Null).
Proof.
  intros Hnd Henc Hnone after.
  rewrite KeyStoreSpec.exec_keys_get. destruct ids as [|i ids'] eqn:Hids.
  - exists {| own := ∅; prototype := ObjectPrototype |}.
    split; [reflexivity|]. split; [set_solver|]. split; [reflexivity|].
    intros key value Hin. inversion Hin.
  - rewrite <- Hids in *. cbn [read_world succeeded Bridge.error Bridge.data fst default].
    cbv [Datatypes.id].
    destruct (KeyStoreSpec.fill_plain jsonDecode fromObject set_inherited category
                (select_keys after instanceId category ids) ids
                {| own := ∅; prototype := ObjectPrototype |} Hnone eq_refl)
      as (filled & -> & Hproto & Hlookup).
    exists filled. split; [reflexivity|]. split; [|split; [exact Hproto|]].
    + apply (KeyStoreSpec.dom_of_lookups _ _
               (key_value jsonDecode fromObject category
                  (select_keys after instanceId category ids))).
      intros id. rewrite Hlookup. cbn [own]. rewrite lookup_empty. reflexivity.
    + intros key value Hkey Hin.
      rewrite Hlookup, decide_True by exact Hkey. f_equal.
      unfold key_value.
      rewrite find_select_keys, decide_True by exact Hkey.
      subst after. rewrite run_keys_set. cbn [snd wa_auth_keys].
      rewrite (keys_after_set_entry data _ _ _ _ Hnd Hin).
      destruct (JS.truthy value) eqn:Hv; cbn [fmap option_fmap option_map SupabaseAuth.data].
      * rewrite (Henc _ Hv). reflexivity.
      * rewrite andb_false_r. reflexivity.
Qed.

(** X19: the credentials against the tables.  A load that finds usable
    credentials returns them decoded and leaves both tables as they are; a
    load that finds none returns the new credentials and leaves them,
    encoded, as the row of this instance.  [saveCreds] replaces the row of
    this instance by the encoded current credentials and touches no other
    row; and a load after a save returns what was saved, encoded and
    decoded, without writing again. *)
Theorem creds_round_trip (tables : Tables) (current : JS.value) :
  let stored := default JS.Null (wa_auth_creds tables !! instanceId) in
  let with_creds (value : JS.value) :=
    {| wa_auth_creds := <[instanceId := jsonEncode value]> (wa_auth_creds tables);
       wa_auth_keys := wa_auth_keys tables |} in
  let load := run_writes fresh (loadCreds jsonEncode jsonDecode instanceId) in
  (load tables =
   if JS.truthy stored then (Ok (jsonDecode stored), tables) else (Ok fresh, with_creds fresh))
  /\ run_writes fresh (saveCreds jsonEncode instanceId current) tables
     = (Ok tt, with_creds current)
  /\ (JS.truthy (jsonEncode current) = true ->
      load (with_creds current) = (Ok (jsonDecode (jsonEncode current)), with_creds current))
  /\ (forall other, other <> instanceId ->
      wa_auth_creds (with_creds current) !! other = wa_auth_creds tables !! other).
Proof.
  intros stored with_creds load.
  assert (Hload : forall T,
    load T =
    if JS.truthy (default JS.Null (wa_auth_creds T !! instanceId))
    then (Ok (jsonDecode (default JS.Null (wa_auth_creds T !! instanceId))), T)
    else (Ok fresh,
          {| wa_auth_creds := <[instanceId := jsonEncode fresh]> (wa_auth_creds T);
             wa_auth_keys := wa_auth_keys T |})).
  { intros T. unfold load, loadCreds.
    cbn [bind call Prog.call run_writes write succeeded Bridge.error Bridge.data].
    destruct (wa_auth_creds T !! instanceId) as [c|];
      cbn [fmap option_fmap option_map creds default from_option Datatypes.id].
    - cbv [Datatypes.id]. destruct (JS.truthy c); reflexivity.
    - reflexivity. }
  split; [apply Hload|]. split; [reflexivity|]. split.
  - intros Henc. rewrite Hload. unfold with_creds. cbn [wa_auth_creds].
    rewrite lookup_insert_eq. cbn. rewrite Henc. reflexivity.
  - intros other Hne. unfold with_creds. cbn [wa_auth_creds].
    apply lookup_insert_ne. congruence.
Qed.

End Tables.

Lemma sample_entries_distinct : NoDup (map fst (entries Samples.key_data)).
Proof.
  cbv [Samples.key_data entries flat_map map fst app].
  repeat (apply NoDup_cons_2; [rewrite ?elem_of_cons, ?elem_of_nil; intuition discriminate|]).
  apply NoDup_nil_2.
Defined.

Lemma keys_set_tables_witness :
  let after :=
    snd (run_writes JS.Null (keys_set Samples.tag_encoded "default" Samples.key_data)
           Samples.tables) in
  wa_auth_keys after !! ("default", "pre-key", "1")
  = Some (Samples.tag_encoded (JS.Str "private"))
  /\ wa_auth_keys after !! ("default", "pre-key", "2") = None.
Proof.
  cbv zeta.
  destruct (keys_set_tables Samples.tag_encoded JS.Null "default" Samples.key_data
              Samples.tables sample_entries_distinct) as (_ & Hentry & _).
  split.
  - apply (Hentry "pre-key" "1" (JS.Str "private")). cbn. auto.
  - apply (Hentry "pre-key" "2" JS.Null). cbn. auto.
Defined.

Lemma keys_set_then_get_witness :
  exists out : Out,
    fst (exec (read_world
                 (snd (run_writes JS.Null
                         (keys_set Samples.tag_encoded "default" Samples.key_data)
                         Samples.tables)))
           (keys_get Samples.tag_revived Samples.tag_proto Samples.set_plain
              "default" "pre-key" ["1"; "2"]))
    = Ok out
    /\ own out !! "1" = Some (Samples.tag_revived (Samples.tag_encoded (JS.Str "private")))
    /\ own out !! "2" = Some JS.Null.
Proof.
  assert (Hnone : "__proto__" ∉ ["1"; "2"]).
  { rewrite !not_elem_of_cons.
    repeat split; [discriminate | discriminate | apply not_elem_of_nil]. }
  destruct (keys_set_then_get Samples.tag_encoded Samples.tag_revived Samples.tag_proto
              Samples.set_plain JS.Null "default" Samples.key_data Samples.tables
              "pre-key" ["1"; "2"]
              sample_entries_distinct (fun value _ => eq_refl) Hnone)
    as (out & Hout & _ & _ & Hvalue).
  exists out. split; [exact Hout|]. split.
  - apply (Hvalue "1" (JS.Str "private")); [set_solver | cbn; auto].
  - apply (Hvalue "2" JS.Null); [set_solver | cbn; auto].
Defined.

End TablesSpec.
